(** * fern-openapi: the IR -> OpenAPI v3 converters

    A shallow embedding of [src/converters/typeConverter.ts] (type and
    type-reference conversion, schema naming) and of the security converter
    ([constructEndpointSecurity], [constructSecuritySchemes],
    [getNameForAuthScheme]), with the properties the specification states
    about them.

    Conventions.
    - A JavaScript string is a [string]: one [ascii] per UTF-16 code unit,
      for code units U+0000..U+00FF.
    - A [throw new Error(msg)] is the result [Throw msg]; a normal return is
      [Ok v].
    - A JavaScript object is the list of its own enumerable properties in the
      order [Object.keys] and JSON serialisation enumerate them. *)

From Stdlib Require Import Bool List String Ascii Arith NArith Lia.
Import ListNotations.

Local Open Scope string_scope.
Local Open Scope list_scope.

Set Implicit Arguments.
Set Warnings "-register-all".

(* ================================================================== *)
(** ** Results of fallible code *)

Inductive result (A : Type) : Type :=
| Ok (a : A)
| Throw (msg : string).

Arguments Ok {A} a.
Arguments Throw {A} msg.

Definition bind {A B : Type} (r : result A) (f : A -> result B) : result B :=
  match r with
  | Ok a => f a
  | Throw m => Throw m
  end.

Notation "x <- c ;; k" := (bind c (fun x => k))
  (at level 61, c at next level, right associativity).

(** [xs.map(f)] where [f] may throw: elements are visited left to right and
    the first exception aborts the loop. *)
Fixpoint mapM {A B : Type} (f : A -> result B) (xs : list A) : result (list B) :=
  match xs with
  | [] => Ok []
  | x :: r => y <- f x ;; ys <- mapM f r ;; Ok (y :: ys)
  end.

(** A loop that threads a state through the elements in order
    ([forEach] or [for ... of] updating local variables, [reduce]). *)
Fixpoint foldM {A S : Type} (f : S -> A -> result S) (xs : list A) (s : S) : result S :=
  match xs with
  | [] => Ok s
  | x :: r => s' <- f s x ;; foldM f r s'
  end.

Definition is_ok {A : Type} (r : result A) : bool :=
  match r with Ok _ => true | Throw _ => false end.

(* ================================================================== *)
(** ** JavaScript values and objects *)

Module Js.

Inductive value : Type :=
| Undefined
| Str (s : string)
| Arr (xs : list value)
| Obj (props : list (string * value)).

(** Own enumerable properties, in enumeration order. *)
Definition object : Type := list (string * value).

Definition is_digit (c : ascii) : bool :=
  (48 <=? nat_of_ascii c)%nat && (nat_of_ascii c <=? 57)%nat.

Fixpoint digits_value (acc : N) (s : string) : option N :=
  match s with
  | EmptyString => Some acc
  | String c r =>
      if is_digit c
      then digits_value (acc * 10 + (N_of_ascii c - 48))%N r
      else None
  end.

(** A canonical decimal numeral: "0", or digits that do not start with "0". *)
Definition canonical (k : string) : bool :=
  match k with
  | EmptyString => false
  | String c r => negb (Ascii.eqb c "0") || String.eqb r ""
  end.

(** ECMAScript "array index": the canonical decimal form of an integer in
    [0, 2^32 - 2].  Such keys are enumerated first, in ascending numeric
    order, whatever the order they were created in. *)
Definition array_index (k : string) : option N :=
  match digits_value 0 k with
  | Some n => if canonical k && (n <? 4294967295)%N then Some n else None
  | None => None
  end.

Fixpoint get (k : string) (o : object) : option value :=
  match o with
  | [] => None
  | (k', v) :: r => if String.eqb k k' then Some v else get k r
  end.

Definition has (k : string) (o : object) : bool :=
  match get k o with Some _ => true | None => false end.

Definition keys (o : object) : list string := map fst o.

(** Overwriting an existing property keeps its position. *)
Fixpoint replace (k : string) (v : value) (o : object) : object :=
  match o with
  | [] => []
  | (k', v') :: r =>
      if String.eqb k k' then (k', v) :: r else (k', v') :: replace k v r
  end.

(** A new array-index key goes before the first key that is a larger index
    or not an index at all. *)
Fixpoint insert_index (n : N) (k : string) (v : value) (o : object) : object :=
  match o with
  | [] => [(k, v)]
  | (k', v') :: r =>
      match array_index k' with
      | Some m =>
          if (m <? n)%N then (k', v') :: insert_index n k v r
          else (k, v) :: (k', v') :: r
      | None => (k, v) :: (k', v') :: r
      end
  end.

(** [CreateDataProperty]: what an object literal ([{k: v}], [{[k]: v}]) and
    spread ([{...o}]) do for each key. *)
Definition define (k : string) (v : value) (o : object) : object :=
  if has k o then replace k v o
  else match array_index k with
       | Some n => insert_index n k v o
       | None => o ++ [(k, v)]
       end.

(** [o[k] = v] on an ordinary object whose prototype is [Object.prototype]:
    an own property is updated; otherwise the key [__proto__] reaches the
    inherited accessor, which changes the prototype and creates no own
    property; any other key creates a data property. *)
Definition assign (k : string) (v : value) (o : object) : object :=
  if has k o then replace k v o
  else if String.eqb k "__proto__" then o
  else define k v o.

(** An object literal: its properties are defined in source order. *)
Definition literal (props : list (string * value)) : object :=
  fold_left (fun o kv => define (fst kv) (snd kv) o) props [].

(** [{...o, k1: v1, ...}]: the own properties of [o], then the literal's. *)
Definition spread (o : object) (props : list (string * value)) : object :=
  fold_left (fun o kv => define (fst kv) (snd kv) o) props (literal o).

(** [xs.join(sep)] on an array of strings. *)
Fixpoint join (sep : string) (xs : list string) : string :=
  match xs with
  | [] => ""
  | [x] => x
  | x :: r => x ++ sep ++ join sep r
  end.

End Js.

(* ================================================================== *)
(** ** lodash: [camelCase] and [upperFirst]

    The converter names schemas with lodash's [_.camelCase] and
    [_.upperFirst].  They are modelled after lodash 4.17: [camelCase] is
    [words(deburr(s).replace(reApos, ''))] reduced with lower-casing and
    [capitalize], and [words] runs one of two regular expressions chosen by
    a third.  The expressions are transcribed as they stand, restricted to
    code units U+0000..U+00FF, and run by a backtracking matcher. *)

Module Lodash.

Definition code (c : ascii) : nat := nat_of_ascii c.

(** The range [lo-hi] of a character class. *)
Definition rng (lo hi : nat) (c : ascii) : bool :=
  (lo <=? code c)%nat && (code c <=? hi)%nat.

Definition one (n : nat) (c : ascii) : bool := (code c =? n)%nat.

(** *** A backtracking matcher for the constructs the expressions use *)

Inductive regex : Type :=
| Class (p : ascii -> bool)      (* [...]            *)
| Lit (s : string)               (* literal text     *)
| Seq (a b : regex)              (* ab               *)
| Alt (a b : regex)              (* a|b              *)
| Opt (p : ascii -> bool)        (* [...]?  (greedy) *)
| Star (p : ascii -> bool)       (* [...]*  (greedy) *)
| Plus (p : ascii -> bool)       (* [...]+  (greedy) *)
| Ahead (a : regex)              (* (?=a)            *)
| NotAhead (a : regex)           (* (?!a)            *)
| Eos                            (* $                *)
| WordB.                         (* \b               *)

(** A continuation receives the code unit before the position, the rest of
    the input and the number of code units consumed so far. *)
Definition cont : Type := option ascii -> string -> nat -> option nat.

Definition final : cont := fun _ _ n => Some n.

Definition or_else (a b : option nat) : option nat :=
  match a with Some m => Some m | None => b end.

Fixpoint star (p : ascii -> bool) (k : cont)
         (prev : option ascii) (s : string) (n : nat) : option nat :=
  match s with
  | String c r =>
      if p c then or_else (star p k (Some c) r (S n)) (k prev s n)
      else k prev s n
  | EmptyString => k prev s n
  end.

Fixpoint lit (l : string) (k : cont)
         (prev : option ascii) (s : string) (n : nat) : option nat :=
  match l with
  | EmptyString => k prev s n
  | String a l' =>
      match s with
      | String c r => if Ascii.eqb a c then lit l' k (Some c) r (S n) else None
      | EmptyString => None
      end
  end.

(** [\w] is [[A-Za-z0-9_]]. *)
Definition word_char (c : ascii) : bool :=
  rng 65 90 c || rng 97 122 c || rng 48 57 c || one 95 c.

Definition is_word (c : option ascii) : bool :=
  match c with Some c => word_char c | None => false end.

Definition peek (s : string) : option ascii :=
  match s with String c _ => Some c | EmptyString => None end.

Fixpoint exec (r : regex) (k : cont)
         (prev : option ascii) (s : string) (n : nat) : option nat :=
  match r with
  | Class p =>
      match s with
      | String c r' => if p c then k (Some c) r' (S n) else None
      | EmptyString => None
      end
  | Lit l => lit l k prev s n
  | Seq a b => exec a (exec b k) prev s n
  | Alt a b => or_else (exec a k prev s n) (exec b k prev s n)
  | Opt p =>
      match s with
      | String c r' =>
          if p c then or_else (k (Some c) r' (S n)) (k prev s n)
          else k prev s n
      | EmptyString => k prev s n
      end
  | Star p => star p k prev s n
  | Plus p =>
      match s with
      | String c r' => if p c then star p k (Some c) r' (S n) else None
      | EmptyString => None
      end
  | Ahead a =>
      match exec a final prev s n with
      | Some _ => k prev s n
      | None => None
      end
  | NotAhead a =>
      match exec a final prev s n with
      | Some _ => None
      | None => k prev s n
      end
  | Eos =>
      match s with
      | EmptyString => k prev s n
      | String _ _ => None
      end
  | WordB =>
      if xorb (is_word prev) (is_word (peek s)) then k prev s n else None
  end.

(** The length of the match of [r] at the current position, if any. *)
Definition match_here (r : regex) (prev : option ascii) (s : string) : option nat :=
  exec r final prev s 0.

(** [re.test(s)]: is there a match at some position? *)
Fixpoint test (r : regex) (prev : option ascii) (s : string) : bool :=
  match match_here r prev s with
  | Some _ => true
  | None =>
      match s with
      | String c s' => test r (Some c) s'
      | EmptyString => false
      end
  end.

(** [s.match(re) || []] for a global [re]: the successive leftmost matches.
    [skip] counts the code units of the last match still to be passed; an
    empty match is recorded and the search resumes one code unit further. *)
Fixpoint match_all (r : regex) (prev : option ascii) (s : string) (skip : nat)
  {struct s} : list string :=
  match skip with
  | S k =>
      match s with
      | String c s' => match_all r (Some c) s' k
      | EmptyString => []
      end
  | O =>
      match match_here r prev s with
      | Some n =>
          substring 0 n s ::
          match s with
          | String c s' => match_all r (Some c) s' (n - 1)
          | EmptyString => []
          end
      | None =>
          match s with
          | String c s' => match_all r (Some c) s' 0
          | EmptyString => []
          end
      end
  end.

(** *** The character classes, for code units up to U+00FF *)

Infix ">>" := Seq (at level 40, left associativity).
Infix "|||" := Alt (at level 50, left associativity).

(** [\d] *)
Definition digit (c : ascii) : bool := rng 48 57 c.

(** [rsLowerRange = 'a-z\xdf-\xf6\xf8-\xff'] *)
Definition lower (c : ascii) : bool :=
  rng 97 122 c || rng 223 246 c || rng 248 255 c.

(** [rsUpperRange = 'A-Z\xc0-\xd6\xd8-\xde'] *)
Definition upper (c : ascii) : bool :=
  rng 65 90 c || rng 192 214 c || rng 216 222 c.

(** [rsBreakRange]: [rsMathOpRange = '\xac\xb1\xd7\xf7'],
    [rsNonCharRange = '\x00-\x2f\x3a-\x40\x5b-\x60\x7b-\xbf'], and of
    [rsPunctuationRange] and [rsSpaceRange] the members up to U+00FF
    (space, [\t], [\x0b], [\f], [\xa0], [\n], [\r]). *)
Definition brk (c : ascii) : bool :=
  one 172 c || one 177 c || one 215 c || one 247 c
  || rng 0 47 c || rng 58 64 c || rng 91 96 c || rng 123 191 c
  || one 32 c || one 9 c || one 11 c || one 12 c || one 160 c
  || one 10 c || one 13 c.

(** [rsMisc = '[^' + rsAstralRange + rsBreakRange + rsDigits
    + rsDingbatRange + rsLowerRange + rsUpperRange + ']'] with
    [rsDigits = '\d+']; the astral and dingbat ranges lie above U+00FF. *)
Definition misc (c : ascii) : bool :=
  negb (brk c || digit c || one 43 c || lower c || upper c).

Definition miscLower (c : ascii) : bool := lower c || misc c.
Definition miscUpper (c : ascii) : bool := upper c || misc c.

(** [/[^\x00-\x2f\x3a-\x40\x5b-\x60\x7b-\x7f]+/g] *)
Definition reAsciiWord : regex :=
  Plus (fun c => negb (rng 0 47 c || rng 58 64 c || rng 91 96 c || rng 123 127 c)).

Definition az (c : ascii) : bool := rng 97 122 c.
Definition AZ (c : ascii) : bool := rng 65 90 c.

(** [/[a-z][A-Z]|[A-Z]{2}[a-z]|[0-9][a-zA-Z]|[a-zA-Z][0-9]|[^a-zA-Z0-9 ]/] *)
Definition reHasUnicodeWord : regex :=
  Class az >> Class AZ
  ||| Class AZ >> Class AZ >> Class az
  ||| Class digit >> Class (fun c => az c || AZ c)
  ||| Class (fun c => az c || AZ c) >> Class digit
  ||| Class (fun c => negb (az c || AZ c || digit c || one 32 c)).

(** [rsOrdLower = '\d*(?:1st|2nd|3rd|(?![123])\dth)(?=\b|[A-Z_])'] *)
Definition rsOrdLower : regex :=
  Star digit
  >> (Lit "1st" ||| Lit "2nd" ||| Lit "3rd"
      ||| NotAhead (Class (rng 49 51)) >> Class digit >> Lit "th")
  >> Ahead (WordB ||| Class (fun c => AZ c || one 95 c)).

(** [rsOrdUpper = '\d*(?:1ST|2ND|3RD|(?![123])\dTH)(?=\b|[a-z_])'] *)
Definition rsOrdUpper : regex :=
  Star digit
  >> (Lit "1ST" ||| Lit "2ND" ||| Lit "3RD"
      ||| NotAhead (Class (rng 49 51)) >> Class digit >> Lit "TH")
  >> Ahead (WordB ||| Class (fun c => az c || one 95 c)).

(** [reUnicodeWord], alternative by alternative.  [camelCase] removes the
    apostrophes before it splits, so the optional contraction groups
    [rsOptContrLower] and [rsOptContrUpper] can only match the empty string
    and are left out; [rsEmoji] matches nothing below U+0100. *)
Definition reUnicodeWord : regex :=
  (* rsUpper? rsLower+ (?=rsBreak|rsUpper|$) *)
  Opt upper >> Plus lower >> Ahead (Class brk ||| Class upper ||| Eos)
  (* rsMiscUpper+ (?=rsBreak|rsUpper rsMiscLower|$) *)
  ||| Plus miscUpper >> Ahead (Class brk ||| Class upper >> Class miscLower ||| Eos)
  (* rsUpper? rsMiscLower+ *)
  ||| Opt upper >> Plus miscLower
  (* rsUpper+ *)
  ||| Plus upper
  ||| rsOrdUpper
  ||| rsOrdLower
  (* rsDigits *)
  ||| Plus digit.

(** *** [deburr], [words], [camelCase], [upperFirst] *)

(** [deburredLetters], Latin-1 Supplement block. *)
Definition deburrLetter (c : ascii) : string :=
  if rng 192 197 c then "A" else if one 198 c then "Ae"
  else if one 199 c then "C" else if rng 200 203 c then "E"
  else if rng 204 207 c then "I" else if one 208 c then "D"
  else if one 209 c then "N" else if rng 210 214 c then "O"
  else if one 216 c then "O" else if rng 217 220 c then "U"
  else if one 221 c then "Y" else if one 222 c then "Th"
  else if one 223 c then "ss" else if rng 224 229 c then "a"
  else if one 230 c then "ae" else if one 231 c then "c"
  else if rng 232 235 c then "e" else if rng 236 239 c then "i"
  else if one 240 c then "d" else if one 241 c then "n"
  else if rng 242 246 c then "o" else if one 248 c then "o"
  else if rng 249 252 c then "u" else if one 253 c then "y"
  else if one 254 c then "th" else if one 255 c then "y"
  else String c "".

(** [string.replace(reLatin, deburrLetter).replace(reComboMark, '')]; the
    combining marks lie above U+00FF. *)
Fixpoint deburr (s : string) : string :=
  match s with
  | EmptyString => ""
  | String c r => deburrLetter c ++ deburr r
  end.

(** [.replace(reApos, '')] with [reApos = /['’]/g]. *)
Fixpoint removeApos (s : string) : string :=
  match s with
  | EmptyString => ""
  | String c r => if one 39 c then removeApos r else String c (removeApos r)
  end.

Definition asciiWords (s : string) : list string := match_all reAsciiWord None s 0.
Definition unicodeWords (s : string) : list string := match_all reUnicodeWord None s 0.
Definition hasUnicodeWord (s : string) : bool := test reHasUnicodeWord None s.

Definition words (s : string) : list string :=
  if hasUnicodeWord s then unicodeWords s else asciiWords s.

Definition lowerChar (c : ascii) : ascii :=
  if rng 65 90 c || rng 192 214 c || rng 216 222 c
  then ascii_of_nat (code c + 32) else c.

Fixpoint toLowerCase (s : string) : string :=
  match s with
  | EmptyString => ""
  | String c r => String (lowerChar c) (toLowerCase r)
  end.

(** [chr.toUpperCase()] for one code unit.  U+00B5 and U+00FF, whose upper
    case lies above U+00FF, are left as they are. *)
Definition upperChar (c : ascii) : string :=
  if rng 97 122 c || rng 224 246 c || rng 248 254 c
  then String (ascii_of_nat (code c - 32)) ""
  else if one 223 c then "SS" else String c "".

(** [createCaseFirst('toUpperCase')]: [chr.toUpperCase() + trailing]. *)
Definition upperFirst (s : string) : string :=
  match s with
  | EmptyString => ""
  | String c r => upperChar c ++ r
  end.

Definition capitalize (s : string) : string := upperFirst (toLowerCase s).

(** [arrayReduce(words, callback, '')] with the callback of [camelCase]:
    [word = word.toLowerCase(); result + (index ? capitalize(word) : word)]. *)
Fixpoint compound (result : string) (index : nat) (ws : list string) : string :=
  match ws with
  | [] => result
  | w :: r =>
      let word := toLowerCase w in
      compound (result ++ (if (index =? 0)%nat then word else capitalize word))
               (S index) r
  end.

Definition camelCase (s : string) : string :=
  compound "" 0 (words (removeApos (deburr s))).

(** *** Vocabulary for the properties of the matcher *)

(** Expressions that cannot match the empty string. *)
Fixpoint nonnull (r : regex) : bool :=
  match r with
  | Class _ => true
  | Plus _ => true
  | Lit l => match l with EmptyString => false | String _ _ => true end
  | Seq a b => nonnull a || nonnull b
  | Alt a b => nonnull a && nonnull b
  | _ => false
  end.

(** [reaches k m n b]: the continuation [k] produced [m] from a position
    at least [n] code units in, and further in when [b] holds. *)
Definition reaches (k : cont) (m n : nat) (b : bool) : Prop :=
  exists prev' s' n', k prev' s' n' = Some m /\ n <= n' /\ (b = true -> n < n').

(** ASCII letters and digits. *)
Definition alnum (c : ascii) : bool := az c || AZ c || digit c.

Fixpoint has_alnum (s : string) : bool :=
  match s with
  | EmptyString => false
  | String c r => alnum c || has_alnum r
  end.

(** Every code unit of [s] satisfies [P]. *)
Fixpoint all_chars (P : ascii -> bool) (s : string) : bool :=
  match s with
  | EmptyString => true
  | String c r => P c && all_chars P r
  end.

(** The expression consumes only code units that satisfy [P] (what it
    looks at ahead without consuming is free). *)
Fixpoint consumes (P : ascii -> bool) (r : regex) : Prop :=
  match r with
  | Class p => forall c, p c = true -> P c = true
  | Opt p => forall c, p c = true -> P c = true
  | Star p => forall c, p c = true -> P c = true
  | Plus p => forall c, p c = true -> P c = true
  | Lit l => all_chars P l = true
  | Seq a b => consumes P a /\ consumes P b
  | Alt a b => consumes P a /\ consumes P b
  | Ahead _ => True
  | NotAhead _ => True
  | Eos => True
  | WordB => True
  end.

(** The letters of the Latin-1 Supplement block, which [deburr] rewrites. *)
Definition latin1_letter (c : ascii) : bool :=
  rng 192 214 c || rng 216 246 c || rng 248 255 c.

(** [[a-zA-Z0-9 ]]: the code units that do not by themselves make
    [hasUnicodeWord] true. *)
Definition basic (c : ascii) : bool := az c || AZ c || digit c || one 32 c.

(** The text is empty or does not start with a lower-case ASCII letter. *)
Definition head_not_lower (s : string) : bool :=
  match s with
  | EmptyString => true
  | String c _ => negb (az c)
  end.

End Lodash.

(* ================================================================== *)
(** ** The intermediate representation (package [@fern-fern/ir-model])

    Each tagged union has, besides its declared variants, the values whose
    tag is none of them: [_visit] sends those to the visitor's [_unknown]. *)

Module IR.

Module DeclaredTypeName.
Record t : Type := make { fernFilepath : list string; name : string }.
End DeclaredTypeName.

Inductive PrimitiveType : Type :=
| INTEGER | DOUBLE | STRING | BOOLEAN | LONG | DATE_TIME | UUID
| PrimitiveType_other (raw : string).

Inductive TypeReference : Type :=
| TR_container (container : ContainerType)
| TR_named (declaredTypeName : DeclaredTypeName.t)
| TR_primitive (primitive : PrimitiveType)
| TR_unknown
| TR_void
| TR_other (tag : string)
with ContainerType : Type :=
| CT_list (list_ : TypeReference)
| CT_set (set_ : TypeReference)
| CT_map (keyType valueType : TypeReference)
| CT_optional (optional : TypeReference)
| CT_other (tag : string).

Scheme TypeReference_mut := Induction for TypeReference Sort Prop
  with ContainerType_mut := Induction for ContainerType Sort Prop.
Combined Scheme TypeReference_ContainerType_ind
  from TypeReference_mut, ContainerType_mut.

Module ObjectProperty.
Record t : Type := make
  { key : string; valueType : TypeReference; docs : option string }.
End ObjectProperty.

Module ObjectTypeDeclaration.
Record t : Type := make
  { extends : list DeclaredTypeName.t; properties : list ObjectProperty.t }.
End ObjectTypeDeclaration.

Module SingleUnionType.
Record t : Type := make
  { discriminantValue : string; valueType : TypeReference }.
End SingleUnionType.

Module UnionTypeDeclaration.
Record t : Type := make
  { discriminant : string; types : list SingleUnionType.t }.
End UnionTypeDeclaration.

Module EnumValue.
Record t : Type := make { value : string }.
End EnumValue.

Module EnumTypeDeclaration.
Record t : Type := make { values : list EnumValue.t }.
End EnumTypeDeclaration.

Module AliasTypeDeclaration.
Record t : Type := make { aliasOf : TypeReference }.
End AliasTypeDeclaration.

(** The IR's [Type]. *)
Inductive Shape : Type :=
| T_alias (a : AliasTypeDeclaration.t)
| T_enum (e : EnumTypeDeclaration.t)
| T_object (o : ObjectTypeDeclaration.t)
| T_union (u : UnionTypeDeclaration.t)
| T_other (tag : string).

Module TypeDeclaration.
Record t : Type := make
  { name : DeclaredTypeName.t; docs : option string; shape : Shape }.
End TypeDeclaration.

(** [header.name.wireValue] and [header.name.name.pascalCase.unsafeName]. *)
Module HeaderAuthScheme.
Record t : Type := make { wireValue : string; pascalCaseUnsafeName : string }.
End HeaderAuthScheme.

Inductive AuthScheme : Type :=
| bearer
| basic
| header (h : HeaderAuthScheme.t)
| AuthScheme_other (tag : string).

Inductive AuthSchemesRequirement : Type :=
| ALL
| ANY
| AuthSchemesRequirement_other (raw : string).

Module ApiAuth.
Record t : Type := make
  { requirement : AuthSchemesRequirement; schemes : list AuthScheme }.
End ApiAuth.

End IR.

Import IR.

(* ================================================================== *)
(** ** [src/converters/typeConverter.ts] *)

Import Js.

(** A [string | undefined] as a JavaScript value; [docs ?? undefined] turns
    an absent ([null]) documentation string into [undefined]. *)
Definition optional_string (docs : option string) : value :=
  match docs with
  | Some d => Str d
  | None => Undefined
  end.

Definition getNameFromDeclaredTypeName (declaredTypeName : DeclaredTypeName.t) : string :=
  let nameTokens := DeclaredTypeName.fernFilepath declaredTypeName in
  let nameTokens := nameTokens ++ [DeclaredTypeName.name declaredTypeName] in
  Lodash.upperFirst (Lodash.camelCase (join " " nameTokens)).

Definition getReferenceFromDeclaredTypeName (declaredTypeName : DeclaredTypeName.t) : string :=
  "#/components/schemas/" ++ getNameFromDeclaredTypeName declaredTypeName.

Definition convertPrimitiveType (primitiveType : PrimitiveType) : result object :=
  match primitiveType with
  | BOOLEAN => Ok (literal [("type", Str "boolean")])
  | DATE_TIME => Ok (literal [("type", Str "string"); ("format", Str "date-time")])
  | DOUBLE => Ok (literal [("type", Str "number"); ("format", Str "double")])
  | INTEGER => Ok (literal [("type", Str "integer")])
  | LONG => Ok (literal [("type", Str "integer"); ("format", Str "int64")])
  | STRING => Ok (literal [("type", Str "string")])
  | UUID => Ok (literal [("type", Str "string"); ("format", Str "uuid")])
  | PrimitiveType_other raw => Throw ("Encountered unknown primitiveType: " ++ raw)
  end.

Fixpoint convertTypeReference (typeReference : TypeReference) : result object :=
  match typeReference with
  | TR_container containerType => convertContainerType containerType
  | TR_named declaredTypeName =>
      Ok (literal [("$ref", Str (getReferenceFromDeclaredTypeName declaredTypeName))])
  | TR_primitive primitiveType => convertPrimitiveType primitiveType
  | TR_unknown => Ok (literal [])
  | TR_void => Ok (literal [])
  | TR_other _ => Throw "Encountered unknown typeReference: [object Object]"
  end
with convertContainerType (containerType : ContainerType) : result object :=
  match containerType with
  | CT_list listType =>
      items <- convertTypeReference listType ;;
      Ok (literal [("type", Str "array"); ("items", Obj items)])
  | CT_set setType =>
      items <- convertTypeReference setType ;;
      Ok (literal [("type", Str "array"); ("items", Obj items)])
  | CT_map _ valueType =>
      additionalProperties <- convertTypeReference valueType ;;
      Ok (literal [("type", Str "object");
                   ("additionalProperties", Obj additionalProperties)])
  | CT_optional optionalType => convertTypeReference optionalType
  | CT_other _ => Throw "Encountered unknown containerType: [object Object]"
  end.

Definition convertAlias (aliasTypeDeclaration : AliasTypeDeclaration.t)
           (docs : option string) : result object :=
  convertedAliasOf <- convertTypeReference (AliasTypeDeclaration.aliasOf aliasTypeDeclaration) ;;
  Ok (spread convertedAliasOf [("description", optional_string docs)]).

Definition convertEnum (enumTypeDeclaration : EnumTypeDeclaration.t)
           (docs : option string) : result object :=
  Ok (literal [("type", Str "string");
               ("enum", Arr (map (fun enumValue => Str (EnumValue.value enumValue))
                                 (EnumTypeDeclaration.values enumTypeDeclaration)));
               ("description", optional_string docs)]).

(** [valueType._type === "container" && valueType.container._type === "optional"] *)
Definition isOptionalProperty (objectProperty : ObjectProperty.t) : bool :=
  match ObjectProperty.valueType objectProperty with
  | TR_container (CT_optional _) => true
  | _ => false
  end.

(** One round of the [forEach] of [convertObject], on the two local
    variables [properties] and [required]. *)
Definition convertObject_step (st : object * list string)
           (objectProperty : ObjectProperty.t) : result (object * list string) :=
  let (properties, required) := st in
  convertedObjectProperty <- convertTypeReference (ObjectProperty.valueType objectProperty) ;;
  let properties :=
    assign (ObjectProperty.key objectProperty)
           (Obj (spread convertedObjectProperty
                        [("description", optional_string (ObjectProperty.docs objectProperty))]))
           properties in
  let required :=
    if negb (isOptionalProperty objectProperty)
    then required ++ [ObjectProperty.key objectProperty]
    else required in
  Ok (properties, required).

Definition ref_object (declaredTypeName : DeclaredTypeName.t) : value :=
  Obj (literal [("$ref", Str (getReferenceFromDeclaredTypeName declaredTypeName))]).

Definition convertObject (objectTypeDeclaration : ObjectTypeDeclaration.t)
           (docs : option string) : result object :=
  st <- foldM convertObject_step
              (ObjectTypeDeclaration.properties objectTypeDeclaration) ([], []) ;;
  let (properties, required) := st in
  let convertedSchemaObject :=
    literal [("type", Str "object");
             ("description", optional_string docs);
             ("properties", Obj properties);
             ("required", Arr (map Str required))] in
  if (0 <? List.length (ObjectTypeDeclaration.extends objectTypeDeclaration))%nat
  then Ok (assign "allOf"
                  (Arr (map ref_object (ObjectTypeDeclaration.extends objectTypeDeclaration)))
                  convertedSchemaObject)
  else Ok convertedSchemaObject.

(** [{type: "string", enum: [singleUnionType.discriminantValue]}] *)
Definition discriminant_tag (singleUnionType : SingleUnionType.t) : value :=
  Obj (literal [("type", Str "string");
                ("enum", Arr [Str (SingleUnionType.discriminantValue singleUnionType)])]).

(** The callback of the [map] of [convertUnion]. *)
Definition convertSingleUnionType (discriminant : string)
           (singleUnionType : SingleUnionType.t) : result value :=
  let valueType := SingleUnionType.valueType singleUnionType in
  convertedValueType <- convertTypeReference valueType ;;
  match valueType with
  | TR_named declaredTypeName =>
      let properties := assign discriminant (discriminant_tag singleUnionType) [] in
      Ok (Obj (literal
        [("type", Str "object");
         ("allOf", Arr [ref_object declaredTypeName;
                        Obj (literal [("type", Str "object");
                                      ("properties", Obj properties)])])]))
  | _ =>
      let properties := assign discriminant (discriminant_tag singleUnionType) [] in
      let properties := assign discriminant (Obj convertedValueType) properties in
      Ok (Obj (literal [("type", Str "object"); ("properties", Obj properties)]))
  end.

Definition convertUnion (unionTypeDeclaration : UnionTypeDeclaration.t)
           (docs : option string) : result object :=
  oneOfTypes <- mapM (convertSingleUnionType (UnionTypeDeclaration.discriminant unionTypeDeclaration))
                     (UnionTypeDeclaration.types unionTypeDeclaration) ;;
  Ok (literal [("oneOf", Arr oneOfTypes); ("description", optional_string docs)]).

Module ConvertedType.
Record t : Type := make { openApiSchema : object; schemaName : string }.
End ConvertedType.

Definition convertType (typeDeclaration : TypeDeclaration.t) : result ConvertedType.t :=
  let shape := TypeDeclaration.shape typeDeclaration in
  let docs := TypeDeclaration.docs typeDeclaration in
  openApiSchema <-
    match shape with
    | T_alias aliasTypeDeclaration => convertAlias aliasTypeDeclaration docs
    | T_enum enumTypeDeclaration => convertEnum enumTypeDeclaration docs
    | T_object objectTypeDeclaration => convertObject objectTypeDeclaration docs
    | T_union unionTypeDeclaration => convertUnion unionTypeDeclaration docs
    | T_other _ => Throw "Encountered unknown type: [object Object]"
    end ;;
  Ok (ConvertedType.make openApiSchema
        (getNameFromDeclaredTypeName (TypeDeclaration.name typeDeclaration))).

(* ================================================================== *)
(** ** The security converter *)

Definition getNameForAuthScheme (authScheme : AuthScheme) : result string :=
  match authScheme with
  | bearer => Ok "BearerAuth"
  | basic => Ok "BasicAuth"
  | header h => Ok (HeaderAuthScheme.pascalCaseUnsafeName h ++ "Auth")%string
  | AuthScheme_other tag => Throw ("Unknown auth scheme: " ++ tag)
  end.

Definition constructEndpointSecurity (apiAuth : ApiAuth.t) : result (list value) :=
  match ApiAuth.requirement apiAuth with
  | ALL =>
      all <- foldM (fun acc scheme =>
                      name <- getNameForAuthScheme scheme ;;
                      Ok (spread acc [(name, Arr [])]))
                   (ApiAuth.schemes apiAuth) (literal []) ;;
      Ok [Obj all]
  | ANY =>
      mapM (fun scheme =>
              name <- getNameForAuthScheme scheme ;;
              Ok (Obj (literal [(name, Arr [])])))
           (ApiAuth.schemes apiAuth)
  | AuthSchemesRequirement_other raw =>
      Throw ("Unknown auth scheme requiremen: " ++ raw)
  end.

Definition securitySchemeObject (scheme : AuthScheme) : result value :=
  match scheme with
  | bearer => Ok (Obj (literal [("type", Str "http"); ("scheme", Str "bearer")]))
  | basic => Ok (Obj (literal [("type", Str "http"); ("scheme", Str "basic")]))
  | header h =>
      Ok (Obj (literal [("type", Str "apiKey"); ("in", Str "header");
                        ("name", Str (HeaderAuthScheme.wireValue h))]))
  | AuthScheme_other tag => Throw ("Unknown auth scheme: " ++ tag)
  end.

Definition constructSecuritySchemes (apiAuth : ApiAuth.t) : result object :=
  foldM (fun securitySchemes scheme =>
           name <- getNameForAuthScheme scheme ;;
           v <- securitySchemeObject scheme ;;
           Ok (assign name v securitySchemes))
        (ApiAuth.schemes apiAuth) [].

(* ================================================================== *)
(** ** Closed-set inputs

    [closed_*]: every tag of the value, at every depth, is one of the
    declared variants.  [visited_*]: the same, at the positions the
    converters look at (the key type of a map is not one of them). *)

Definition closed_primitive (p : PrimitiveType) : bool :=
  match p with
  | PrimitiveType_other _ => false
  | _ => true
  end.

Fixpoint closed_ref (t : TypeReference) : bool :=
  match t with
  | TR_container c => closed_container c
  | TR_named _ => true
  | TR_primitive p => closed_primitive p
  | TR_unknown => true
  | TR_void => true
  | TR_other _ => false
  end
with closed_container (c : ContainerType) : bool :=
  match c with
  | CT_list t => closed_ref t
  | CT_set t => closed_ref t
  | CT_map k v => closed_ref k && closed_ref v
  | CT_optional t => closed_ref t
  | CT_other _ => false
  end.

Fixpoint visited_ref (t : TypeReference) : bool :=
  match t with
  | TR_container c => visited_container c
  | TR_named _ => true
  | TR_primitive p => closed_primitive p
  | TR_unknown => true
  | TR_void => true
  | TR_other _ => false
  end
with visited_container (c : ContainerType) : bool :=
  match c with
  | CT_list t => visited_ref t
  | CT_set t => visited_ref t
  | CT_map _ v => visited_ref v
  | CT_optional t => visited_ref t
  | CT_other _ => false
  end.

Definition closed_object (o : ObjectTypeDeclaration.t) : bool :=
  forallb (fun p => closed_ref (ObjectProperty.valueType p))
          (ObjectTypeDeclaration.properties o).

Definition closed_union (u : UnionTypeDeclaration.t) : bool :=
  forallb (fun v => closed_ref (SingleUnionType.valueType v))
          (UnionTypeDeclaration.types u).

Definition closed_shape (s : Shape) : bool :=
  match s with
  | T_alias a => closed_ref (AliasTypeDeclaration.aliasOf a)
  | T_enum _ => true
  | T_object o => closed_object o
  | T_union u => closed_union u
  | T_other _ => false
  end.

Definition visited_shape (s : Shape) : bool :=
  match s with
  | T_alias a => visited_ref (AliasTypeDeclaration.aliasOf a)
  | T_enum _ => true
  | T_object o =>
      forallb (fun p => visited_ref (ObjectProperty.valueType p))
              (ObjectTypeDeclaration.properties o)
  | T_union u =>
      forallb (fun v => visited_ref (SingleUnionType.valueType v))
              (UnionTypeDeclaration.types u)
  | T_other _ => false
  end.

Definition closed_scheme (s : AuthScheme) : bool :=
  match s with
  | AuthScheme_other _ => false
  | _ => true
  end.

Definition closed_requirement (r : AuthSchemesRequirement) : bool :=
  match r with
  | AuthSchemesRequirement_other _ => false
  | _ => true
  end.

Definition closed_auth (a : ApiAuth.t) : bool :=
  closed_requirement (ApiAuth.requirement a)
  && forallb closed_scheme (ApiAuth.schemes a).

(** The messages of the six [_unknown] branches start with one of these. *)
Definition descriptive (msg : string) : bool :=
  prefix "Encountered unknown type: " msg
  || prefix "Encountered unknown typeReference: " msg
  || prefix "Encountered unknown primitiveType: " msg
  || prefix "Encountered unknown containerType: " msg
  || prefix "Unknown auth scheme: " msg
  || prefix "Unknown auth scheme requiremen: " msg.

(* ================================================================== *)
(** ** Vocabulary of the specification, and the inputs of the examples *)

(** The key lists a converted type reference can have. *)
Definition reference_keys : list (list string) :=
  [ []; ["$ref"]; ["type"]; ["type"; "format"]; ["type"; "items"];
    ["type"; "additionalProperties"] ].

(** The keys of the properties that are not optional, in declared order. *)
Definition required_keys (props : list ObjectProperty.t) : list string :=
  map ObjectProperty.key (filter (fun p => negb (isOptionalProperty p)) props).

(** What the specification says of one entry of [properties]: the key of
    the property, and its converted value type with the property's
    documentation as [description]. *)
Definition property_entry (p : ObjectProperty.t) (kv : string * value) : Prop :=
  fst kv = ObjectProperty.key p
  /\ exists c, convertTypeReference (ObjectProperty.valueType p) = Ok c
       /\ snd kv = Obj (c ++ [("description", optional_string (ObjectProperty.docs p))]).

(** Keys that a property assignment appends: not an array index, not
    [__proto__]. *)
Definition ordinary_key (k : string) : Prop :=
  array_index k = None /\ k <> "__proto__".

Definition ordinary_keys (props : list ObjectProperty.t) : Prop :=
  NoDup (map ObjectProperty.key props)
  /\ Forall ordinary_key (map ObjectProperty.key props).

(** The [allOf] part of a converted object. *)
Definition allOf_of (exts : list DeclaredTypeName.t) : object :=
  match exts with
  | [] => []
  | _ :: _ =>
      [("allOf", Arr (map (fun d => Obj [("$ref", Str (getReferenceFromDeclaredTypeName d))])
                          exts))]
  end.

(** An object whose second declared property has an array-index key. *)
Definition indexed_keys_object : ObjectTypeDeclaration.t :=
  ObjectTypeDeclaration.make []
    [ ObjectProperty.make "b" (TR_primitive STRING) None;
      ObjectProperty.make "1" (TR_primitive STRING) None ].

Definition two_properties_object : ObjectTypeDeclaration.t :=
  ObjectTypeDeclaration.make
    [ DeclaredTypeName.make ["core"] "base"; DeclaredTypeName.make [] "audited" ]
    [ ObjectProperty.make "id" (TR_primitive UUID) (Some "The identifier");
      ObjectProperty.make "nickname"
        (TR_container (CT_optional (TR_primitive STRING))) None ].

Definition optional_only_object : ObjectTypeDeclaration.t :=
  ObjectTypeDeclaration.make []
    [ ObjectProperty.make "nickname"
        (TR_container (CT_optional (TR_primitive STRING))) None ].

(** What the specification says of the schema of one variant. *)
Definition variant_entry (discriminant : string) (v : SingleUnionType.t)
           (out : value) : Prop :=
  match SingleUnionType.valueType v with
  | TR_named d =>
      out = Obj [("type", Str "object");
                 ("allOf",
                  Arr [Obj [("$ref", Str (getReferenceFromDeclaredTypeName d))];
                       Obj [("type", Str "object");
                            ("properties",
                             Obj [(discriminant,
                                   Obj [("type", Str "string");
                                        ("enum", Arr [Str (SingleUnionType.discriminantValue v)])])])]])]
  | t =>
      exists c, convertTypeReference t = Ok c
        /\ out = Obj [("type", Str "object");
                      ("properties", Obj [(discriminant, Obj c)])]
  end.

(** A union whose discriminant is the key [__proto__]. *)
Definition proto_union : UnionTypeDeclaration.t :=
  UnionTypeDeclaration.make "__proto__"
    [ SingleUnionType.make "dog" (TR_named (DeclaredTypeName.make [] "dog"));
      SingleUnionType.make "count" (TR_primitive INTEGER) ].

Definition pet_union : UnionTypeDeclaration.t :=
  UnionTypeDeclaration.make "type"
    [ SingleUnionType.make "dog" (TR_named (DeclaredTypeName.make [] "dog"));
      SingleUnionType.make "count" (TR_primitive INTEGER) ].

(** The names in order of first occurrence. *)
Fixpoint add_names (acc names : list string) : list string :=
  match names with
  | [] => acc
  | n :: r => add_names (if in_dec string_dec n acc then acc else acc ++ [n]) r
  end.

Definition distinct_names (names : list string) : list string :=
  add_names [] names.

(** A requirement object: each name mapped to the empty scope list. *)
Definition scopes (names : list string) : object :=
  map (fun n => (n, Arr [])) names.

(** A map whose key type carries an unrecognized primitive kind. *)
Definition odd_key_map : TypeReference :=
  TR_container (CT_map (TR_primitive (PrimitiveType_other "BIG_INTEGER"))
                       (TR_primitive STRING)).

(** What a schema keeps of a type reference: optional wrappers, the
    difference between list and set, between unknown and void, and the key
    type of a map are gone, and of a named reference the resolved schema
    name is left. *)
Inductive kind : Type :=
| K_any
| K_ref (schemaName : string)
| K_primitive (p : PrimitiveType)
| K_array (items : kind)
| K_map (values : kind).

Fixpoint kind_of (t : TypeReference) : option kind :=
  match t with
  | TR_container c => kind_of_container c
  | TR_named d => Some (K_ref (getNameFromDeclaredTypeName d))
  | TR_primitive p => if closed_primitive p then Some (K_primitive p) else None
  | TR_unknown => Some K_any
  | TR_void => Some K_any
  | TR_other _ => None
  end
with kind_of_container (c : ContainerType) : option kind :=
  match c with
  | CT_list t => option_map K_array (kind_of t)
  | CT_set t => option_map K_array (kind_of t)
  | CT_map _ v => option_map K_map (kind_of v)
  | CT_optional t => kind_of t
  | CT_other _ => None
  end.

(** The schema of a kind. *)
Fixpoint render (k : kind) : result object :=
  match k with
  | K_any => Ok []
  | K_ref n => Ok [("$ref", Str ("#/components/schemas/" ++ n)%string)]
  | K_primitive p => convertPrimitiveType p
  | K_array items =>
      o <- render items ;; Ok [("type", Str "array"); ("items", Obj o)]
  | K_map values =>
      o <- render values ;;
      Ok [("type", Str "object"); ("additionalProperties", Obj o)]
  end.

(** The last declared property with the key [k], if any. *)
Fixpoint last_property (k : string) (props : list ObjectProperty.t)
         (found : option ObjectProperty.t) : option ObjectProperty.t :=
  match props with
  | [] => found
  | p :: r =>
      last_property k r
        (if String.eqb k (ObjectProperty.key p) then Some p else found)
  end.

(** The last declared scheme whose computed name is [n], if any. *)
Fixpoint last_scheme (n : string) (schemes : list AuthScheme)
         (found : option AuthScheme) : option AuthScheme :=
  match schemes with
  | [] => found
  | s :: r =>
      last_scheme n r
        (match getNameForAuthScheme s with
         | Ok m => if String.eqb n m then Some s else found
         | Throw _ => found
         end)
  end.

(** The declared type names a type reference mentions where the converter
    looks (not in the key type of a map), left to right. *)
Fixpoint named_in (t : TypeReference) : list DeclaredTypeName.t :=
  match t with
  | TR_container c => named_in_container c
  | TR_named d => [d]
  | _ => []
  end
with named_in_container (c : ContainerType) : list DeclaredTypeName.t :=
  match c with
  | CT_list t => named_in t
  | CT_set t => named_in t
  | CT_map _ v => named_in v
  | CT_optional t => named_in t
  | CT_other _ => []
  end.

(** The declared type names a declaration mentions: supertypes, and the
    names in property, variant and alias types. *)
Definition named_in_shape (s : Shape) : list DeclaredTypeName.t :=
  match s with
  | T_alias a => named_in (AliasTypeDeclaration.aliasOf a)
  | T_enum _ => []
  | T_object o =>
      ObjectTypeDeclaration.extends o
      ++ flat_map (fun p => named_in (ObjectProperty.valueType p))
                  (ObjectTypeDeclaration.properties o)
  | T_union u =>
      flat_map (fun v => named_in (SingleUnionType.valueType v))
               (UnionTypeDeclaration.types u)
  | T_other _ => []
  end.

(** The strings held under a [$ref] key anywhere in a value. *)
Fixpoint refs_of (v : value) : list string :=
  match v with
  | Obj props =>
      (fix in_props (l : list (string * value)) : list string :=
         match l with
         | [] => []
         | (k, x) :: r =>
             match x with
             | Str s => if String.eqb k "$ref" then [s] else []
             | _ => refs_of x
             end ++ in_props r
         end) props
  | Arr xs =>
      (fix in_items (l : list value) : list string :=
         match l with
         | [] => []
         | x :: r => refs_of x ++ in_items r
         end) xs
  | _ => []
  end.

(** The state of the loop of [convertObject] with respect to one key. *)
Definition key_state (k : string) (found : option ObjectProperty.t)
           (ps : object) : Prop :=
  match found with
  | Some p =>
      exists c, convertTypeReference (ObjectProperty.valueType p) = Ok c
        /\ get k ps
           = Some (Obj (c ++ [("description", optional_string (ObjectProperty.docs p))]))
  | None => get k ps = None
  end.

(** The state of the loop of [constructSecuritySchemes] with respect to
    one name. *)
Definition scheme_state (n : string) (found : option AuthScheme)
           (defs : object) : Prop :=
  match found with
  | Some s => exists v, securitySchemeObject s = Ok v /\ get n defs = Some v
  | None => get n defs = None
  end.

(* ================================================================== *)
(** ** Facts about objects *)

Lemma eqb_neq_false (a b : string) : a <> b -> String.eqb a b = false.
Proof. intro H. apply String.eqb_neq. exact H. Qed.

Lemma get_app_None (k : string) (o1 o2 : object) :
  get k o1 = None -> get k (o1 ++ o2) = get k o2.
Proof.
  induction o1 as [|[k' v'] r IH]; simpl; intro H; [reflexivity|].
  destruct (String.eqb k k'); [discriminate | auto].
Qed.

Lemma get_not_in (k : string) (o : object) :
  ~ In k (keys o) -> get k o = None.
Proof.
  induction o as [|[k' v'] r IH]; simpl; intro H; [reflexivity|].
  rewrite eqb_neq_false by (intro E; apply H; left; symmetry; exact E).
  apply IH. intro Hin. apply H. right. exact Hin.
Qed.

Lemma has_not_in (k : string) (o : object) :
  ~ In k (keys o) -> has k o = false.
Proof. intro H. unfold has. rewrite get_not_in by exact H. reflexivity. Qed.

(** A new key that is not an array index goes last. *)
Lemma define_new (k : string) (v : value) (o : object) :
  ~ In k (keys o) -> array_index k = None -> define k v o = o ++ [(k, v)].
Proof.
  intros Hk Hi. unfold define. rewrite has_not_in by exact Hk.
  rewrite Hi. reflexivity.
Qed.

Lemma assign_new (k : string) (v : value) (o : object) :
  ~ In k (keys o) -> array_index k = None -> k <> "__proto__" ->
  assign k v o = o ++ [(k, v)].
Proof.
  intros Hk Hi Hp. unfold assign. rewrite has_not_in by exact Hk.
  rewrite eqb_neq_false by exact Hp. apply define_new; assumption.
Qed.

Lemma keys_app (o1 o2 : object) : keys (o1 ++ o2) = keys o1 ++ keys o2.
Proof. unfold keys. apply map_app. Qed.

(** Defining, in order, keys that are distinct, new and not array indices
    appends them in that order. *)
Lemma fold_define_app (l acc : object) :
  NoDup (keys (acc ++ l)) ->
  Forall (fun k => array_index k = None) (keys l) ->
  fold_left (fun o kv => define (fst kv) (snd kv) o) l acc = acc ++ l.
Proof.
  revert acc. induction l as [|[k v] r IH]; intros acc Hnd Hidx; simpl.
  - rewrite app_nil_r. reflexivity.
  - inversion Hidx as [|? ? Hk Hr]; subst.
    assert (Hnew : ~ In k (keys acc)).
    { rewrite keys_app in Hnd. simpl in Hnd.
      apply NoDup_remove_2 in Hnd. intro Hin. apply Hnd.
      apply in_or_app. left. exact Hin. }
    rewrite define_new by assumption.
    rewrite IH.
    + rewrite <- app_assoc. reflexivity.
    + rewrite <- app_assoc. exact Hnd.
    + exact Hr.
Qed.

Lemma literal_canonical (o : object) :
  NoDup (keys o) -> Forall (fun k => array_index k = None) (keys o) ->
  literal o = o.
Proof. intros Hnd Hidx. unfold literal. apply (fold_define_app o []); assumption. Qed.

Lemma spread_new (o : object) (k : string) (v : value) :
  NoDup (keys o) -> Forall (fun k => array_index k = None) (keys o) ->
  ~ In k (keys o) -> array_index k = None ->
  spread o [(k, v)] = o ++ [(k, v)].
Proof.
  intros Hnd Hidx Hk Hi. unfold spread. rewrite literal_canonical by assumption.
  simpl. apply define_new; assumption.
Qed.

(* ================================================================== *)
(** ** Facts about [convertTypeReference] *)

Lemma convertPrimitiveType_keys (p : PrimitiveType) (o : object) :
  convertPrimitiveType p = Ok o -> In (keys o) reference_keys.
Proof.
  destruct p; simpl; intro H; inversion H; subst; simpl; auto 10.
Qed.

Lemma convertTypeReference_keys_mut :
  (forall t o, convertTypeReference t = Ok o -> In (keys o) reference_keys)
  /\ (forall c o, convertContainerType c = Ok o -> In (keys o) reference_keys).
Proof.
  apply TypeReference_ContainerType_ind; simpl; intros.
  - auto.
  - inversion H; subst; simpl; auto 10.
  - eapply convertPrimitiveType_keys; eauto.
  - inversion H; subst; simpl; auto 10.
  - inversion H; subst; simpl; auto 10.
  - discriminate.
  - destruct (convertTypeReference list_); simpl in *; [|discriminate].
    inversion H0; subst; simpl; auto 10.
  - destruct (convertTypeReference set_); simpl in *; [|discriminate].
    inversion H0; subst; simpl; auto 10.
  - destruct (convertTypeReference valueType); simpl in *; [|discriminate].
    inversion H1; subst; simpl; auto 10.
  - auto.
  - discriminate.
Qed.

Lemma convertTypeReference_keys (t : TypeReference) (o : object) :
  convertTypeReference t = Ok o -> In (keys o) reference_keys.
Proof. apply (proj1 convertTypeReference_keys_mut). Qed.

(** Attaching a description to a converted reference puts it last. *)
Lemma with_description (t : TypeReference) (o : object) (d : value) :
  convertTypeReference t = Ok o ->
  spread o [("description", d)] = o ++ [("description", d)].
Proof.
  intro H. apply convertTypeReference_keys in H.
  assert (Hk : forall ks, In ks reference_keys ->
            NoDup ks /\ Forall (fun k => array_index k = None) ks
            /\ ~ In "description" ks).
  { intros ks Hin. unfold reference_keys in Hin. simpl in Hin.
    repeat (destruct Hin as [<-|Hin]; [
      repeat split;
      [ repeat constructor; simpl; intuition discriminate
      | repeat constructor
      | simpl; intuition discriminate ] |]).
    contradiction. }
  destruct (Hk _ H) as (Hnd & Hidx & Hno).
  apply spread_new; auto.
Qed.

Lemma convertPrimitiveType_ok (p : PrimitiveType) :
  is_ok (convertPrimitiveType p) = closed_primitive p.
Proof. destruct p; reflexivity. Qed.

Lemma is_ok_bind {A B : Type} (r : result A) (f : A -> result B) :
  (forall a, is_ok (f a) = true) -> is_ok (bind r f) = is_ok r.
Proof. intro H. destruct r; simpl; auto. Qed.

(** A type reference converts exactly when the tags the converter visits
    are recognized. *)
Lemma convertTypeReference_ok_mut :
  (forall t, is_ok (convertTypeReference t) = visited_ref t)
  /\ (forall c, is_ok (convertContainerType c) = visited_container c).
Proof.
  apply TypeReference_ContainerType_ind; simpl; intros; auto.
  - apply convertPrimitiveType_ok.
  - rewrite is_ok_bind; auto.
  - rewrite is_ok_bind; auto.
  - rewrite is_ok_bind; auto.
Qed.

Lemma convertTypeReference_ok (t : TypeReference) :
  is_ok (convertTypeReference t) = visited_ref t.
Proof. apply (proj1 convertTypeReference_ok_mut). Qed.

Lemma closed_visited_mut :
  (forall t, closed_ref t = true -> visited_ref t = true)
  /\ (forall c, closed_container c = true -> visited_container c = true).
Proof.
  apply TypeReference_ContainerType_ind; simpl; intros; auto.
  apply andb_true_iff in H1. destruct H1. auto.
Qed.

Lemma closed_visited (t : TypeReference) :
  closed_ref t = true -> visited_ref t = true.
Proof. apply (proj1 closed_visited_mut). Qed.

Lemma closed_converts (t : TypeReference) :
  closed_ref t = true -> exists o, convertTypeReference t = Ok o.
Proof.
  intro H. apply closed_visited in H. rewrite <- convertTypeReference_ok in H.
  destruct (convertTypeReference t) as [o|m]; [eauto | discriminate].
Qed.

(** Every failure of [convertTypeReference] carries one of the messages of
    the [_unknown] branches. *)
Lemma convertTypeReference_throw_mut :
  (forall t m, convertTypeReference t = Throw m -> descriptive m = true)
  /\ (forall c m, convertContainerType c = Throw m -> descriptive m = true).
Proof.
  apply TypeReference_ContainerType_ind; simpl; intros; eauto; try discriminate.
  - destruct primitive; simpl in H; try discriminate.
    inversion H; subst. destruct raw; reflexivity.
  - inversion H; subst. reflexivity.
  - destruct (convertTypeReference list_); simpl in *; [discriminate|].
    inversion H0; subst. eauto.
  - destruct (convertTypeReference set_); simpl in *; [discriminate|].
    inversion H0; subst. eauto.
  - destruct (convertTypeReference valueType); simpl in *; [discriminate|].
    inversion H1; subst. eauto.
  - inversion H; subst. reflexivity.
Qed.

Lemma convertTypeReference_throw (t : TypeReference) (m : string) :
  convertTypeReference t = Throw m -> descriptive m = true.
Proof. apply (proj1 convertTypeReference_throw_mut). Qed.

(* ================================================================== *)
(** ** Facts about the matcher and [camelCase] *)

Module LodashFacts.
Import Lodash.

(** The examples of lodash's documentation for these functions. *)
Example documented_camelCase :
  camelCase "Foo Bar" = "fooBar"
  /\ camelCase "--foo-bar--" = "fooBar"
  /\ camelCase "__FOO_BAR__" = "fooBar".
Proof. repeat split; vm_compute; reflexivity. Qed.

Example documented_upperFirst :
  upperFirst "fred" = "Fred" /\ upperFirst "FRED" = "FRED".
Proof. split; reflexivity. Qed.

Example documented_words :
  words "fred, barney, & pebbles" = ["fred"; "barney"; "pebbles"].
Proof. vm_compute. reflexivity. Qed.

Example documented_capitalize : capitalize "FRED" = "Fred".
Proof. reflexivity. Qed.

(** Compound words, digits and ordinals split as in lodash's tests. *)
Example compound_words :
  words "XMLHttpRequest" = ["XML"; "Http"; "Request"]
  /\ words "enable 24h format" = ["enable"; "24"; "h"; "format"]
  /\ words "1st 2nd 3rd 4th" = ["1st"; "2nd"; "3rd"; "4th"]
  /\ words "fooBar" = ["foo"; "Bar"].
Proof. repeat split; vm_compute; reflexivity. Qed.

Lemma reaches_weaken (k : cont) (m n n0 : nat) (b b0 : bool) :
  reaches k m n b -> n0 <= n -> (b0 = true -> b = true \/ n0 < n) ->
  reaches k m n0 b0.
Proof.
  intros (p & s & n' & Hk & Hle & Hlt) H0 Hb.
  exists p, s, n'. repeat split; auto; try lia.
  intro Hb0. destruct (Hb Hb0) as [Hb1|Hb1]; [specialize (Hlt Hb1)|]; lia.
Qed.

Ltac weaken H :=
  eapply reaches_weaken;
  [ exact H | lia
  | let Hb := fresh in
    intro Hb; try discriminate Hb; try (right; lia);
    try (apply andb_true_iff in Hb; tauto); auto ].

Ltac stay prev s n :=
  exists prev, s, n; repeat split; auto; discriminate.

Lemma star_consumes (p : ascii -> bool) (k : cont) (s : string) :
  forall prev n m, star p k prev s n = Some m -> reaches k m n false.
Proof.
  induction s as [|c r IH]; simpl; intros prev n m H.
  - stay prev EmptyString n.
  - destruct (p c).
    + destruct (star p k (Some c) r (S n)) eqn:E; simpl in H.
      * inversion H; subst. apply IH in E. weaken E.
      * stay prev (String c r) n.
    + stay prev (String c r) n.
Qed.

Lemma lit_consumes (l : string) (k : cont) :
  forall prev s n m, lit l k prev s n = Some m ->
  reaches k m n (match l with EmptyString => false | String _ _ => true end).
Proof.
  induction l as [|a l' IH]; simpl; intros prev s n m H.
  - stay prev s n.
  - destruct s as [|c r]; [discriminate|].
    destruct (Ascii.eqb a c); [|discriminate].
    apply IH in H. weaken H.
Qed.

Lemma exec_consumes (r : regex) :
  forall k prev s n m, exec r k prev s n = Some m -> reaches k m n (nonnull r).
Proof.
  induction r as [p|l|a IHa b IHb|a IHa b IHb|p|p|p|a IHa|a IHa| |];
    simpl; intros k prev s n m H.
  - destruct s as [|c r']; [discriminate|]. destruct (p c); [|discriminate].
    exists (Some c), r', (S n). repeat split; auto.
  - eapply lit_consumes; eauto.
  - apply IHa in H. destruct H as (p1 & s1 & n1 & H1 & Hle1 & Hlt1).
    apply IHb in H1. destruct H1 as (p2 & s2 & n2 & H2 & Hle2 & Hlt2).
    exists p2, s2, n2. repeat split; auto; try lia.
    intro Hb. apply orb_true_iff in Hb. destruct Hb as [Hb|Hb];
      [specialize (Hlt1 Hb) | specialize (Hlt2 Hb)]; lia.
  - destruct (exec a k prev s n) eqn:E; simpl in H.
    + inversion H; subst. apply IHa in E. weaken E.
    + apply IHb in H. weaken H.
  - destruct s as [|c r'].
    + stay prev EmptyString n.
    + destruct (p c).
      * destruct (k (Some c) r' (S n)) eqn:E; simpl in H.
        -- inversion H; subst. stay (Some c) r' (S n).
        -- stay prev (String c r') n.
      * stay prev (String c r') n.
  - eapply star_consumes; eauto.
  - destruct s as [|c r']; [discriminate|]. destruct (p c); [|discriminate].
    apply star_consumes in H. weaken H.
  - destruct (exec a final prev s n); [|discriminate]. stay prev s n.
  - destruct (exec a final prev s n); [discriminate|]. stay prev s n.
  - destruct s; [|discriminate]. stay prev EmptyString n.
  - destruct (xorb (is_word prev) (is_word (peek s))); [|discriminate].
    stay prev s n.
Qed.

(** A match of a non-null expression is at least one code unit long. *)
Lemma match_here_nonnull (r : regex) (prev : option ascii) (s : string) (m : nat) :
  nonnull r = true -> match_here r prev s = Some m -> 1 <= m.
Proof.
  intros Hn H. apply exec_consumes in H.
  destruct H as (p & s' & n' & Hf & _ & Hlt).
  unfold final in Hf. inversion Hf; subst. specialize (Hlt Hn). lia.
Qed.

Lemma star_final (p : ascii -> bool) (s : string) :
  forall prev n, exists m, star p final prev s n = Some m.
Proof.
  induction s as [|c r IH]; simpl; intros prev n.
  - unfold final. eauto.
  - destruct (p c); [|unfold final; eauto].
    destruct (IH (Some c) (S n)) as [m Hm]. rewrite Hm. simpl. eauto.
Qed.

Lemma plus_final (p : ascii -> bool) (prev : option ascii) (c : ascii) (r : string) (n : nat) :
  p c = true -> exists m, exec (Plus p) final prev (String c r) n = Some m.
Proof. intro H. simpl. rewrite H. apply star_final. Qed.

Lemma or_else_l (a b : option nat) :
  (exists m, a = Some m) -> exists m, or_else a b = Some m.
Proof. intros [m ->]. simpl. eauto. Qed.

Lemma or_else_r (a b : option nat) :
  (exists m, b = Some m) -> exists m, or_else a b = Some m.
Proof. intros [m ->]. destruct a; simpl; eauto. Qed.

Ltac by_cases_on c :=
  destruct c as [[] [] [] [] [] [] [] []]; vm_compute; intros;
  solve [reflexivity | discriminate | auto].

Lemma az_lower (c : ascii) : az c = true -> lower c = true /\ miscLower c = true.
Proof. by_cases_on c. Qed.

Lemma AZ_upper (c : ascii) : AZ c = true -> upper c = true.
Proof. by_cases_on c. Qed.

Lemma alnum_ascii_word (c : ascii) :
  alnum c = true ->
  negb (rng 0 47 c || rng 58 64 c || rng 91 96 c || rng 123 127 c) = true.
Proof. by_cases_on c. Qed.

Lemma alnum_deburr (c : ascii) : alnum c = true -> deburrLetter c = String c "".
Proof. by_cases_on c. Qed.

Lemma alnum_not_apos (c : ascii) : alnum c = true -> one 39 c = false.
Proof. by_cases_on c. Qed.

Lemma upperChar_nonempty (c : ascii) : upperChar c <> "".
Proof.
  unfold upperChar.
  destruct (rng 97 122 c || rng 224 246 c || rng 248 254 c); [discriminate|].
  destruct (one 223 c); discriminate.
Qed.

(** At an ASCII letter or digit both word expressions match. *)
Lemma reAsciiWord_matches (prev : option ascii) (c : ascii) (r : string) :
  alnum c = true -> exists m, match_here reAsciiWord prev (String c r) = Some m.
Proof.
  intro H. unfold match_here, reAsciiWord. apply plus_final.
  apply alnum_ascii_word. exact H.
Qed.

Lemma reUnicodeWord_matches (prev : option ascii) (c : ascii) (r : string) :
  alnum c = true -> exists m, match_here reUnicodeWord prev (String c r) = Some m.
Proof.
  intro H. unfold alnum in H.
  apply orb_true_iff in H. destruct H as [H|Hd].
  apply orb_true_iff in H. destruct H as [Hl|Hu].
  - (* a lower-case letter: [rsUpper? rsMiscLower+] *)
    destruct (az_lower c Hl) as [_ Hm].
    unfold match_here, reUnicodeWord. cbn [exec].
    do 4 apply or_else_l. apply or_else_r.
    destruct (upper c).
    + apply or_else_r. rewrite Hm. apply star_final.
    + rewrite Hm. apply star_final.
  - (* an upper-case letter: [rsUpper+] *)
    apply AZ_upper in Hu.
    unfold match_here, reUnicodeWord. cbn [exec].
    do 3 apply or_else_l. apply or_else_r.
    rewrite Hu. apply star_final.
  - (* a digit: [rsDigits] *)
    unfold match_here, reUnicodeWord. cbn [exec].
    apply or_else_r. rewrite Hd. apply star_final.
Qed.

(** If an expression cannot match the empty string and matches at every
    ASCII letter or digit, its global match on a text that has one starts
    with a non-empty word. *)
Lemma match_all_nonempty (re : regex) :
  nonnull re = true ->
  (forall prev c r, alnum c = true ->
     exists m, match_here re prev (String c r) = Some m) ->
  forall s prev, has_alnum s = true ->
  exists w ws, match_all re prev s 0 = w :: ws /\ w <> "".
Proof.
  intros Hn Hm. induction s as [|c r IH]; intros prev H; [discriminate|].
  cbn [match_all].
  destruct (match_here re prev (String c r)) as [n|] eqn:E.
  - pose proof (match_here_nonnull _ _ _ Hn E) as Hpos.
    destruct n as [|n]; [lia|].
    eexists. eexists. split; [reflexivity|]. simpl. discriminate.
  - simpl in H. destruct (alnum c) eqn:Ea.
    + destruct (Hm prev c r Ea) as [m Hc]. congruence.
    + simpl in H. apply IH. exact H.
Qed.

Lemma words_nonempty (s : string) :
  has_alnum s = true -> exists w ws, words s = w :: ws /\ w <> "".
Proof.
  intro H. unfold words, unicodeWords, asciiWords.
  destruct (hasUnicodeWord s).
  - apply match_all_nonempty; auto. intros. apply reUnicodeWord_matches; auto.
  - apply match_all_nonempty; auto. intros. apply reAsciiWord_matches; auto.
Qed.

Lemma has_alnum_app (a b : string) :
  has_alnum (a ++ b) = has_alnum a || has_alnum b.
Proof.
  induction a as [|c r IH]; simpl; [reflexivity|].
  rewrite IH. apply orb_assoc.
Qed.

Lemma has_alnum_deburr (s : string) :
  has_alnum s = true -> has_alnum (deburr s) = true.
Proof.
  induction s as [|c r IH]; simpl; intro H; [discriminate|].
  rewrite has_alnum_app. apply orb_true_iff.
  destruct (alnum c) eqn:Ea.
  - left. rewrite alnum_deburr by exact Ea. simpl. rewrite Ea. reflexivity.
  - right. apply IH. exact H.
Qed.

Lemma has_alnum_removeApos (s : string) :
  has_alnum s = true -> has_alnum (removeApos s) = true.
Proof.
  induction s as [|c r IH]; simpl; intro H; [discriminate|].
  destruct (alnum c) eqn:Ea.
  - rewrite alnum_not_apos by exact Ea. simpl. rewrite Ea. reflexivity.
  - simpl in H. destruct (one 39 c); simpl; [|rewrite Ea; simpl]; auto.
Qed.

Lemma toLowerCase_nonempty (s : string) : s <> "" -> toLowerCase s <> "".
Proof. destruct s; simpl; [congruence | discriminate]. Qed.

Lemma append_nonempty_l (a b : string) : a <> "" -> (a ++ b)%string <> "".
Proof. destruct a; simpl; [congruence | discriminate]. Qed.

Lemma compound_nonempty (ws : list string) :
  forall result index, result <> "" -> compound result index ws <> "".
Proof.
  induction ws as [|w r IH]; simpl; intros result index H; [exact H|].
  apply IH. apply append_nonempty_l. exact H.
Qed.

Lemma upperFirst_nonempty (s : string) : s <> "" -> upperFirst s <> "".
Proof.
  destruct s as [|c r]; simpl; [congruence|]. intros _.
  apply append_nonempty_l. apply upperChar_nonempty.
Qed.

(** A phrase with an ASCII letter or digit has a non-empty camel case. *)
Lemma camelCase_nonempty (s : string) :
  has_alnum s = true -> camelCase s <> "".
Proof.
  intro H. unfold camelCase.
  destruct (words_nonempty (removeApos (deburr s))) as (w & ws & -> & Hw).
  { apply has_alnum_removeApos. apply has_alnum_deburr. exact H. }
  simpl. apply compound_nonempty. apply toLowerCase_nonempty. exact Hw.
Qed.

End LodashFacts.

(* ================================================================== *)
(** ** Schema names and references *)

Lemma join_concat (sep : string) (xs : list string) :
  join sep xs = String.concat sep xs.
Proof.
  induction xs as [|x r IH]; [reflexivity|].
  destruct r as [|y r]; [reflexivity|].
  cbn [join String.concat]. cbn [join String.concat] in IH.
  rewrite IH. reflexivity.
Qed.

Lemma join_cons (sep x : string) (r : list string) :
  r <> [] -> join sep (x :: r) = (x ++ sep ++ join sep r)%string.
Proof. destruct r; [congruence | reflexivity]. Qed.

Lemma string_app_assoc (a b c : string) :
  ((a ++ b) ++ c)%string = (a ++ (b ++ c))%string.
Proof. induction a as [|x a IH]; simpl; [reflexivity | rewrite IH; reflexivity]. Qed.

(** A space inside a segment and the space between two segments give the
    same phrase. *)
Lemma join_segment_boundary (p q : list string) (a b leaf : string) :
  join " " ((p ++ [(a ++ " " ++ b)%string] ++ q) ++ [leaf])
  = join " " ((p ++ [a; b] ++ q) ++ [leaf]).
Proof.
  induction p as [|x p IH].
  - cbn [app]. rewrite !join_cons by (destruct q; discriminate).
    rewrite !string_app_assoc. reflexivity.
  - cbn [app]. cbn [app] in IH.
    rewrite !join_cons by (destruct p; discriminate).
    rewrite IH. reflexivity.
Qed.

Lemma has_alnum_join_last (path : list string) (leaf : string) :
  Lodash.has_alnum leaf = true ->
  Lodash.has_alnum (join " " (path ++ [leaf])) = true.
Proof.
  intro H. induction path as [|x p IH]; [exact H|].
  cbn [app]. rewrite join_cons by (destruct p; discriminate).
  rewrite !LodashFacts.has_alnum_app. rewrite IH.
  rewrite !orb_true_r. reflexivity.
Qed.

(** C1. The schema name of a declared type with path segments s1..sn and
    leaf name m is the upper-first of the camel case of the phrase
    "s1 ... sn m" (segments and leaf joined with one space); a space inside
    a segment is the same boundary as the one between two segments; the
    reference is "#/components/schemas/" followed by the schema name.  Path
    ["core","models"] with leaf "user" gives "CoreModelsUser" and
    "#/components/schemas/CoreModelsUser". *)
Theorem C1_schema_name_and_reference :
  (forall segments leaf,
     getNameFromDeclaredTypeName (DeclaredTypeName.make segments leaf)
     = Lodash.upperFirst (Lodash.camelCase (String.concat " " (segments ++ [leaf]))))
  /\ (forall D,
     getReferenceFromDeclaredTypeName D
     = ("#/components/schemas/" ++ getNameFromDeclaredTypeName D)%string)
  /\ (forall p q a b leaf,
     getNameFromDeclaredTypeName
       (DeclaredTypeName.make (p ++ [(a ++ " " ++ b)%string] ++ q) leaf)
     = getNameFromDeclaredTypeName (DeclaredTypeName.make (p ++ [a; b] ++ q) leaf))
  /\ getNameFromDeclaredTypeName (DeclaredTypeName.make ["core"; "models"] "user")
     = "CoreModelsUser"
  /\ getReferenceFromDeclaredTypeName (DeclaredTypeName.make ["core"; "models"] "user")
     = "#/components/schemas/CoreModelsUser".
Proof.
  split; [|split; [|split; [|split]]].
  - intros segments leaf. unfold getNameFromDeclaredTypeName.
    cbn [DeclaredTypeName.fernFilepath DeclaredTypeName.name].
    rewrite join_concat. reflexivity.
  - reflexivity.
  - intros p q a b leaf. unfold getNameFromDeclaredTypeName.
    cbn [DeclaredTypeName.fernFilepath DeclaredTypeName.name].
    rewrite join_segment_boundary. reflexivity.
  - vm_compute. reflexivity.
  - vm_compute. reflexivity.
Qed.

(** C9 fails as stated: a leaf name without a letter or digit, such as "_"
    or the empty string, resolves to the empty schema name. *)
Lemma C9_counterexample :
  getNameFromDeclaredTypeName (DeclaredTypeName.make [] "_") = ""
  /\ getNameFromDeclaredTypeName (DeclaredTypeName.make [] "") = "".
Proof. split; vm_compute; reflexivity. Qed.

(** C9, amended.  Name resolution is a total function of the declared type
    name (it has no failure mode), and its result is a non-empty string
    whenever the leaf name contains an ASCII letter or digit, whatever the
    path, the empty path included. *)
Theorem C9_name_nonempty (D : DeclaredTypeName.t) :
  Lodash.has_alnum (DeclaredTypeName.name D) = true ->
  getNameFromDeclaredTypeName D <> "".
Proof.
  intro H. unfold getNameFromDeclaredTypeName.
  apply LodashFacts.upperFirst_nonempty.
  apply LodashFacts.camelCase_nonempty.
  apply has_alnum_join_last. exact H.
Qed.

Lemma C9_name_nonempty_witness :
  Lodash.has_alnum (DeclaredTypeName.name (DeclaredTypeName.make [] "user")) = true
  /\ getNameFromDeclaredTypeName (DeclaredTypeName.make [] "user") <> "".
Proof.
  split; [reflexivity|].
  apply (C9_name_nonempty (DeclaredTypeName.make [] "user")). reflexivity.
Defined.

(* ================================================================== *)
(** ** Type references *)

(** C2. A named type reference converts to exactly the object
    [{$ref: "#/components/schemas/" + name}], where the name is resolved
    from the declared type name alone: the declaration it points to is not
    an input of the conversion and is never expanded. *)
Theorem C2_named_is_ref (D : DeclaredTypeName.t) :
  convertTypeReference (TR_named D)
  = Ok [("$ref", Str ("#/components/schemas/" ++ getNameFromDeclaredTypeName D)%string)].
Proof. reflexivity. Qed.


(* ================================================================== *)
(** ** Object declarations *)

Lemma convertObject_unfold (o : ObjectTypeDeclaration.t) (docs : option string) :
  convertObject o docs =
  st <- foldM convertObject_step (ObjectTypeDeclaration.properties o) ([], []) ;;
  Ok ([("type", Str "object");
       ("description", optional_string docs);
       ("properties", Obj (fst st));
       ("required", Arr (map Str (snd st)))]
      ++ allOf_of (ObjectTypeDeclaration.extends o)).
Proof.
  unfold convertObject.
  destruct (foldM convertObject_step (ObjectTypeDeclaration.properties o) ([], []))
    as [[ps rs]|m]; [|reflexivity].
  cbn [bind fst snd].
  destruct (ObjectTypeDeclaration.extends o) as [|d exts]; reflexivity.
Qed.

Lemma convertObject_loop_ok (props : list ObjectProperty.t) :
  forallb (fun p => closed_ref (ObjectProperty.valueType p)) props = true ->
  forall st, exists st', foldM convertObject_step props st = Ok st'.
Proof.
  induction props as [|p r IH]; simpl; intros H st; [eauto|].
  apply andb_true_iff in H. destruct H as [Hp Hr].
  destruct st as [ps rs]. unfold convertObject_step at 1.
  destruct (closed_converts _ Hp) as [c ->]. cbn [bind]. apply IH. exact Hr.
Qed.

Lemma convertObject_loop_required (props : list ObjectProperty.t) :
  forall ps rs ps' rs',
    foldM convertObject_step props (ps, rs) = Ok (ps', rs') ->
    rs' = rs ++ required_keys props.
Proof.
  unfold required_keys.
  induction props as [|p r IH]; simpl; intros ps rs ps' rs' H.
  - inversion H; subst. rewrite app_nil_r. reflexivity.
  - destruct (convertTypeReference (ObjectProperty.valueType p)) as [c|m];
      [|discriminate].
    cbn [bind] in H. apply IH in H. subst rs'.
    destruct (isOptionalProperty p); simpl; [reflexivity|].
    rewrite <- app_assoc. reflexivity.
Qed.

Lemma convertObject_loop_properties (props : list ObjectProperty.t) :
  forall ps rs ps' rs',
    foldM convertObject_step props (ps, rs) = Ok (ps', rs') ->
    NoDup (keys ps ++ map ObjectProperty.key props) ->
    Forall ordinary_key (map ObjectProperty.key props) ->
    exists entries, ps' = ps ++ entries /\ Forall2 property_entry props entries.
Proof.
  induction props as [|p r IH]; simpl; intros ps rs ps' rs' H Hnd Hord.
  - inversion H; subst. exists []. rewrite app_nil_r. split; constructor.
  - destruct (convertTypeReference (ObjectProperty.valueType p)) as [c|m] eqn:Ec;
      [|discriminate].
    cbn [bind] in H.
    inversion Hord as [|? ? [Hidx Hproto] Hord']; subst.
    rewrite (with_description _ _ Ec) in H.
    rewrite assign_new in H; auto.
    2:{ apply NoDup_remove_2 in Hnd. intro Hin. apply Hnd.
        apply in_or_app. left. exact Hin. }
    apply IH in H; auto.
    2:{ rewrite keys_app. simpl. rewrite <- app_assoc. exact Hnd. }
    destruct H as (entries & -> & Hall).
    eexists (_ :: entries). rewrite <- app_assoc. split; [reflexivity|].
    constructor; [|exact Hall].
    split; [reflexivity|]. exists c. split; [exact Ec | reflexivity].
Qed.

(** A declaration over the closed set converts, to the four fields and the
    [allOf] part; [ps] is what the loop left in [properties]. *)
Lemma convertObject_closed (o : ObjectTypeDeclaration.t) (docs : option string) :
  closed_object o = true ->
  exists ps,
    convertObject o docs
    = Ok ([("type", Str "object");
           ("description", optional_string docs);
           ("properties", Obj ps);
           ("required", Arr (map Str (required_keys (ObjectTypeDeclaration.properties o))))]
          ++ allOf_of (ObjectTypeDeclaration.extends o))
    /\ foldM convertObject_step (ObjectTypeDeclaration.properties o) ([], [])
       = Ok (ps, required_keys (ObjectTypeDeclaration.properties o)).
Proof.
  intro Hc. rewrite convertObject_unfold.
  destruct (convertObject_loop_ok _ Hc ([], [])) as [[ps rs] Hloop].
  rewrite Hloop. cbn [bind fst snd].
  pose proof (convertObject_loop_required _ _ _ Hloop) as Hr.
  simpl in Hr. subst rs.
  exists ps. split; reflexivity.
Qed.

(** C4 fails as stated: the properties "b", "1", declared in this order,
    come out in the order "1", "b" (an object enumerates its array-index
    keys first), so the output's properties are not in declared order. *)
Lemma C4_counterexample :
  closed_object indexed_keys_object = true
  /\ exists out ps,
       convertObject indexed_keys_object None = Ok out
       /\ get "properties" out = Some (Obj ps)
       /\ keys ps = ["1"; "b"]
       /\ ~ Forall2 property_entry
            (ObjectTypeDeclaration.properties indexed_keys_object) ps.
Proof.
  split; [reflexivity|].
  eexists. eexists. split; [vm_compute; reflexivity|].
  split; [reflexivity|]. split; [reflexivity|].
  intro H. inversion H as [|p kv ps' kvs [Hk _] _]; subst.
  simpl in Hk. discriminate.
Qed.

(** C4, amended.  For an object declaration over the closed set of
    variants, the required list is exactly the keys of the properties whose
    value type is not an optional container, in declared order; and when
    the property keys are pairwise distinct and none is an array index
    (canonical integer) or [__proto__], the output's properties are, in
    declared order, one per declared property: its key with the conversion
    of its value type followed by the property's docs as description. *)
Theorem C4_object_properties_required
        (o : ObjectTypeDeclaration.t) (docs : option string) :
  closed_object o = true ->
  exists ps,
    convertObject o docs
    = Ok ([("type", Str "object");
           ("description", optional_string docs);
           ("properties", Obj ps);
           ("required", Arr (map Str (required_keys (ObjectTypeDeclaration.properties o))))]
          ++ allOf_of (ObjectTypeDeclaration.extends o))
    /\ (ordinary_keys (ObjectTypeDeclaration.properties o) ->
        Forall2 property_entry (ObjectTypeDeclaration.properties o) ps).
Proof.
  intro Hc. destruct (convertObject_closed o docs Hc) as (ps & Hout & Hloop).
  exists ps. split; [exact Hout|].
  intros [Hnd Hord].
  destruct (convertObject_loop_properties _ _ _ Hloop) as (entries & He & Hall); auto.
  simpl in He. subst ps. exact Hall.
Qed.

Lemma C4_object_properties_required_witness :
  closed_object two_properties_object = true
  /\ ordinary_keys (ObjectTypeDeclaration.properties two_properties_object)
  /\ exists ps,
       convertObject two_properties_object None
       = Ok ([("type", Str "object");
              ("description", Undefined);
              ("properties", Obj ps);
              ("required", Arr [Str "id"])]
             ++ allOf_of (ObjectTypeDeclaration.extends two_properties_object))
       /\ Forall2 property_entry
            (ObjectTypeDeclaration.properties two_properties_object) ps.
Proof.
  assert (Hk : ordinary_keys (ObjectTypeDeclaration.properties two_properties_object)).
  { split; simpl.
    - repeat constructor; simpl; intuition discriminate.
    - repeat constructor; discriminate. }
  split; [reflexivity|]. split; [exact Hk|].
  destruct (C4_object_properties_required two_properties_object None eq_refl)
    as (ps & Hout & Hps).
  exists ps. split; [exact Hout | exact (Hps Hk)].
Defined.

(** The two other exceptions of the amended statement: a repeated key
    keeps one entry, the last assigned, and [__proto__] leaves none. *)
Example repeated_key_overwrites :
  convertObject
    (ObjectTypeDeclaration.make []
       [ ObjectProperty.make "a" (TR_primitive STRING) None;
         ObjectProperty.make "a" (TR_primitive INTEGER) None ]) None
  = Ok [("type", Str "object");
        ("description", Undefined);
        ("properties",
         Obj [("a", Obj [("type", Str "integer"); ("description", Undefined)])]);
        ("required", Arr [Str "a"; Str "a"])].
Proof. vm_compute. reflexivity. Qed.

Example proto_key_creates_no_property :
  convertObject
    (ObjectTypeDeclaration.make []
       [ ObjectProperty.make "__proto__" (TR_primitive STRING) None ]) None
  = Ok [("type", Str "object");
        ("description", Undefined);
        ("properties", Obj []);
        ("required", Arr [Str "__proto__"])].
Proof. vm_compute. reflexivity. Qed.

(** C6.  For an object declaration over the closed set of variants: with
    an empty extends list the output has the fields type, description,
    properties and required and no allOf; with a non-empty extends list the
    output is that same schema object with one more field, allOf, holding
    one [{$ref: reference}] per supertype in declared order. *)
Theorem C6_extends_allOf (props : list ObjectProperty.t) (docs : option string) :
  forallb (fun p => closed_ref (ObjectProperty.valueType p)) props = true ->
  exists base,
    convertObject (ObjectTypeDeclaration.make [] props) docs = Ok base
    /\ keys base = ["type"; "description"; "properties"; "required"]
    /\ get "allOf" base = None
    /\ forall d exts,
         convertObject (ObjectTypeDeclaration.make (d :: exts) props) docs
         = Ok (base ++
               [("allOf",
                 Arr (map (fun s => Obj [("$ref", Str (getReferenceFromDeclaredTypeName s))])
                          (d :: exts)))]).
Proof.
  intro Hc.
  destruct (convertObject_loop_ok _ Hc ([], [])) as [[ps rs] Hloop].
  eexists. split; [|split; [|split]].
  - rewrite convertObject_unfold.
    cbn [ObjectTypeDeclaration.properties ObjectTypeDeclaration.extends].
    rewrite Hloop. cbn [bind fst snd allOf_of]. rewrite app_nil_r. reflexivity.
  - reflexivity.
  - reflexivity.
  - intros d exts. rewrite convertObject_unfold.
    cbn [ObjectTypeDeclaration.properties ObjectTypeDeclaration.extends].
    rewrite Hloop. reflexivity.
Qed.

Lemma C6_extends_allOf_witness :
  exists base,
    convertObject (ObjectTypeDeclaration.make []
                     (ObjectTypeDeclaration.properties two_properties_object)) None
    = Ok base
    /\ convertObject two_properties_object None
       = Ok (base ++
             [("allOf", Arr [Obj [("$ref", Str "#/components/schemas/CoreBase")];
                             Obj [("$ref", Str "#/components/schemas/Audited")]])]).
Proof.
  destruct (C6_extends_allOf
              (ObjectTypeDeclaration.properties two_properties_object) None eq_refl)
    as (base & Hb & _ & _ & Hext).
  exists base. split; [exact Hb|].
  exact (Hext (DeclaredTypeName.make ["core"] "base")
              [DeclaredTypeName.make [] "audited"]).
Defined.

Lemma required_keys_all_optional (props : list ObjectProperty.t) :
  forallb isOptionalProperty props = true -> required_keys props = [].
Proof.
  unfold required_keys. induction props as [|p r IH]; simpl; intro H; [reflexivity|].
  apply andb_true_iff in H. destruct H as [Hp Hr].
  rewrite Hp. simpl. apply IH. exact Hr.
Qed.

(** C10.  For an object declaration over the closed set of variants the
    output has the four fields type ("object"), description, properties and
    required; with no property, properties is the empty mapping and
    required the empty array; with only optional properties, required is
    still there, as the empty array. *)
Theorem C10_object_fields (o : ObjectTypeDeclaration.t) (docs : option string) :
  closed_object o = true ->
  exists out ps rs,
    convertObject o docs = Ok out
    /\ get "type" out = Some (Str "object")
    /\ get "description" out = Some (optional_string docs)
    /\ get "properties" out = Some (Obj ps)
    /\ get "required" out = Some (Arr rs)
    /\ (ObjectTypeDeclaration.properties o = [] -> ps = [] /\ rs = [])
    /\ (forallb isOptionalProperty (ObjectTypeDeclaration.properties o) = true ->
        rs = []).
Proof.
  intro Hc.
  destruct (convertObject_closed o docs Hc) as (ps & Hout & Hloop).
  rewrite Hout.
  eexists. exists ps. eexists.
  split; [reflexivity|]. repeat (split; [reflexivity|]).
  split.
  - intro He. rewrite He in Hloop. simpl in Hloop.
    inversion Hloop; subst. rewrite He. split; reflexivity.
  - intro Hopt. rewrite required_keys_all_optional by exact Hopt. reflexivity.
Qed.

Lemma C10_object_fields_witness :
  closed_object optional_only_object = true
  /\ exists out ps rs,
       convertObject optional_only_object (Some "A profile") = Ok out
       /\ get "type" out = Some (Str "object")
       /\ get "description" out = Some (Str "A profile")
       /\ get "properties" out = Some (Obj ps)
       /\ get "required" out = Some (Arr rs)
       /\ rs = [].
Proof.
  split; [reflexivity|].
  destruct (C10_object_fields optional_only_object (Some "A profile") eq_refl)
    as (out & ps & rs & H1 & H2 & H3 & H4 & H5 & _ & H7).
  exists out, ps, rs. repeat (split; [assumption|]).
  apply H7. reflexivity.
Defined.

(* ================================================================== *)
(** ** Union declarations *)

Lemma assign_empty (k : string) (v : value) :
  k <> "__proto__" -> assign k v [] = [(k, v)].
Proof.
  intro H. unfold assign. simpl. rewrite eqb_neq_false by exact H.
  unfold define. simpl. destruct (array_index k); reflexivity.
Qed.

Lemma assign_again (k : string) (v v' : value) :
  assign k v' [(k, v)] = [(k, v')].
Proof.
  unfold assign, has. cbn [get replace].
  rewrite !(String.eqb_refl k). reflexivity.
Qed.

Lemma convertSingleUnionType_closed (discriminant : string) (v : SingleUnionType.t) :
  closed_ref (SingleUnionType.valueType v) = true ->
  discriminant <> "__proto__" ->
  exists out, convertSingleUnionType discriminant v = Ok out
    /\ variant_entry discriminant v out.
Proof.
  intros Hc Hd. unfold convertSingleUnionType, variant_entry.
  destruct (closed_converts _ Hc) as [c Ec]. rewrite Ec. cbn [bind].
  rewrite (assign_empty _ Hd). rewrite assign_again.
  destruct (SingleUnionType.valueType v) eqn:Ev;
    try (eexists; split; [reflexivity|]; exists c; split; [exact Ec | reflexivity]).
  eexists; split; reflexivity.
Qed.

Lemma convertUnion_loop (discriminant : string) (types : list SingleUnionType.t) :
  forallb (fun v => closed_ref (SingleUnionType.valueType v)) types = true ->
  discriminant <> "__proto__" ->
  exists vs, mapM (convertSingleUnionType discriminant) types = Ok vs
    /\ Forall2 (variant_entry discriminant) types vs.
Proof.
  intros Hc Hd. induction types as [|v r IH]; simpl.
  - exists []. split; constructor.
  - simpl in Hc. apply andb_true_iff in Hc. destruct Hc as [Hv Hr].
    destruct (convertSingleUnionType_closed v Hv Hd) as (out & -> & Hout).
    destruct (IH Hr) as (vs & -> & Hvs).
    exists (out :: vs). split; [reflexivity|]. constructor; assumption.
Qed.

(** C5, at the discriminant [__proto__].  The converter means to store
    the discriminant entry with [properties[discriminant] = ...]; for this
    one key the assignment reaches the inherited [__proto__] setter and
    creates no property, so the named and the non-named variant both come
    out with an empty [properties], not with the entry the union encoding
    calls for: a defect of the code. *)
Theorem C5_proto_discriminant :
  closed_union proto_union = true
  /\ convertUnion proto_union None
     = Ok [("oneOf",
            Arr [Obj [("type", Str "object");
                      ("allOf", Arr [Obj [("$ref", Str "#/components/schemas/Dog")];
                                     Obj [("type", Str "object");
                                          ("properties", Obj [])]])];
                 Obj [("type", Str "object"); ("properties", Obj [])]]);
           ("description", Undefined)]
  /\ ~ exists vs,
         convertUnion proto_union None
         = Ok [("oneOf", Arr vs); ("description", Undefined)]
         /\ Forall2 (variant_entry "__proto__")
                    (UnionTypeDeclaration.types proto_union) vs.
Proof.
  assert (E : convertUnion proto_union None
     = Ok [("oneOf",
            Arr [Obj [("type", Str "object");
                      ("allOf", Arr [Obj [("$ref", Str "#/components/schemas/Dog")];
                                     Obj [("type", Str "object");
                                          ("properties", Obj [])]])];
                 Obj [("type", Str "object"); ("properties", Obj [])]]);
           ("description", Undefined)]) by (vm_compute; reflexivity).
  split; [reflexivity|]. split; [exact E|].
  intros (vs & Hvs & Hall). rewrite E in Hvs. inversion Hvs; subst.
  inversion Hall as [|? ? ? ? Hdog _]; subst.
  unfold variant_entry in Hdog. simpl in Hdog. discriminate.
Qed.

(** For every other discriminant the encoding is the intended one: for a
    union declaration over the closed set of variants whose discriminant is
    not [__proto__], the output is
    [{oneOf: [...], description}] with one entry per variant in declared
    order: for a variant whose value type is a named reference,
    [{type: "object", allOf: [{$ref}, {type: "object", properties:
    {discriminant: {type: "string", enum: [discriminantValue]}}}]}]; for any
    other value type, [{type: "object", properties: {discriminant:
    converted value type}}]. *)
Theorem C5_union_variants (u : UnionTypeDeclaration.t) (docs : option string) :
  closed_union u = true ->
  UnionTypeDeclaration.discriminant u <> "__proto__" ->
  exists vs,
    convertUnion u docs
    = Ok [("oneOf", Arr vs); ("description", optional_string docs)]
    /\ Forall2 (variant_entry (UnionTypeDeclaration.discriminant u))
               (UnionTypeDeclaration.types u) vs.
Proof.
  intros Hc Hd. unfold convertUnion.
  destruct (convertUnion_loop _ Hc Hd) as (vs & -> & Hvs).
  exists vs. split; [reflexivity | exact Hvs].
Qed.

Lemma C5_union_variants_witness :
  closed_union pet_union = true
  /\ UnionTypeDeclaration.discriminant pet_union <> "__proto__"
  /\ exists vs,
       convertUnion pet_union None
       = Ok [("oneOf", Arr vs); ("description", Undefined)]
       /\ Forall2 (variant_entry "type") (UnionTypeDeclaration.types pet_union) vs.
Proof.
  split; [reflexivity|]. split; [discriminate|].
  apply (C5_union_variants pet_union None); [reflexivity | discriminate].
Defined.

(* ================================================================== *)
(** ** Security requirements *)

Lemma keys_scopes (names : list string) : keys (scopes names) = names.
Proof.
  unfold keys, scopes. rewrite map_map. simpl. apply map_id.
Qed.

Lemma scopes_app (a b : list string) : scopes (a ++ b) = scopes a ++ scopes b.
Proof. apply map_app. Qed.

Lemma add_names_incl (names : list string) :
  forall acc n, In n (add_names acc names) <-> In n acc \/ In n names.
Proof.
  induction names as [|x r IH]; simpl; intros acc n; [tauto|].
  rewrite IH. destruct (in_dec string_dec x acc) as [Hin|Hout].
  - split; [tauto|]. intros [H|[<-|H]]; auto.
  - rewrite in_app_iff. simpl. tauto.
Qed.

Lemma add_names_nodup (names : list string) :
  forall acc, NoDup (acc ++ names) -> add_names acc names = acc ++ names.
Proof.
  induction names as [|x r IH]; simpl; intros acc H.
  - rewrite app_nil_r. reflexivity.
  - destruct (in_dec string_dec x acc) as [Hin|Hout].
    + apply NoDup_remove_2 in H. exfalso. apply H.
      apply in_or_app. left. exact Hin.
    + rewrite IH; rewrite <- app_assoc; [reflexivity | exact H].
Qed.

Lemma digits_value_Auth (u : string) :
  forall acc, digits_value acc (u ++ "Auth") = None.
Proof.
  induction u as [|c r IH]; intro acc; [reflexivity|].
  simpl. destruct (is_digit c); [apply IH | reflexivity].
Qed.

(** The name of a scheme is never an array index. *)
Lemma getNameForAuthScheme_not_index (s : AuthScheme) (n : string) :
  getNameForAuthScheme s = Ok n -> array_index n = None.
Proof.
  destruct s; simpl; intro H; inversion H; subst; try reflexivity.
  unfold array_index. rewrite digits_value_Auth. reflexivity.
Qed.

Lemma mapM_names_not_index (schemes : list AuthScheme) :
  forall names, mapM getNameForAuthScheme schemes = Ok names ->
  Forall (fun n => array_index n = None) names.
Proof.
  induction schemes as [|s r IH]; simpl; intros names H.
  - inversion H. constructor.
  - destruct (getNameForAuthScheme s) as [n|] eqn:En; [|discriminate].
    cbn [bind] in H.
    destruct (mapM getNameForAuthScheme r) as [ns|]; [|discriminate].
    inversion H; subst. constructor; [|apply IH; reflexivity].
    eapply getNameForAuthScheme_not_index; eauto.
Qed.

Lemma replace_scopes (n : string) (names : list string) :
  replace n (Arr []) (scopes names) = scopes names.
Proof.
  induction names as [|x r IH]; simpl; [reflexivity|].
  destruct (String.eqb n x); [reflexivity | rewrite IH; reflexivity].
Qed.

Lemma get_scopes (n : string) (names : list string) :
  In n names -> get n (scopes names) = Some (Arr []).
Proof.
  induction names as [|x r IH]; simpl; intro H; [contradiction|].
  destruct (String.eqb n x) eqn:E; [reflexivity|].
  apply IH. destruct H as [->|H]; [|exact H].
  rewrite String.eqb_refl in E. discriminate.
Qed.

Lemma has_scopes (n : string) (names : list string) :
  In n names -> has n (scopes names) = true.
Proof. intro H. unfold has. rewrite get_scopes by exact H. reflexivity. Qed.

(** One round of the [reduce] of the [all] branch. *)
Lemma spread_scopes (acc : list string) (n : string) :
  NoDup acc -> Forall (fun k => array_index k = None) acc ->
  array_index n = None ->
  spread (scopes acc) [(n, Arr [])]
  = scopes (if in_dec string_dec n acc then acc else acc ++ [n]).
Proof.
  intros Hnd Hidx Hn. unfold spread.
  rewrite literal_canonical by (rewrite keys_scopes; assumption).
  simpl. destruct (in_dec string_dec n acc) as [Hin|Hout].
  - unfold define. rewrite has_scopes by exact Hin. apply replace_scopes.
  - rewrite define_new; [| rewrite keys_scopes; exact Hout | exact Hn].
    rewrite scopes_app. reflexivity.
Qed.

Lemma all_loop (schemes : list AuthScheme) :
  forall names acc,
    mapM getNameForAuthScheme schemes = Ok names ->
    NoDup acc -> Forall (fun k => array_index k = None) acc ->
    foldM (fun acc scheme =>
             name <- getNameForAuthScheme scheme ;;
             Ok (spread acc [(name, Arr [])]))
          schemes (scopes acc)
    = Ok (scopes (add_names acc names)).
Proof.
  induction schemes as [|s r IH]; simpl; intros names acc H Hnd Hidx.
  - inversion H. reflexivity.
  - destruct (getNameForAuthScheme s) as [n|] eqn:En; [|discriminate].
    cbn [bind] in H |- *.
    destruct (mapM getNameForAuthScheme r) as [ns|] eqn:Er; [|discriminate].
    inversion H; subst. simpl.
    pose proof (getNameForAuthScheme_not_index _ En) as Hn.
    rewrite spread_scopes by assumption.
    apply IH; [reflexivity| |].
    + destruct (in_dec string_dec n acc) as [Hin|Hout]; [exact Hnd|].
      apply NoDup_app; [exact Hnd | repeat constructor; simpl; tauto |].
      intros x Hx [<-|[]]. contradiction.
    + destruct (in_dec string_dec n acc); [exact Hidx|].
      apply Forall_app. split; [exact Hidx | repeat constructor; exact Hn].
Qed.

Lemma any_loop (schemes : list AuthScheme) :
  forall names,
    mapM getNameForAuthScheme schemes = Ok names ->
    mapM (fun scheme =>
            name <- getNameForAuthScheme scheme ;;
            Ok (Obj (literal [(name, Arr [])])))
         schemes
    = Ok (map (fun n => Obj [(n, Arr [])]) names).
Proof.
  induction schemes as [|s r IH]; simpl; intros names H.
  - inversion H. reflexivity.
  - destruct (getNameForAuthScheme s) as [n|] eqn:En; [|discriminate].
    cbn [bind] in H |- *.
    destruct (mapM getNameForAuthScheme r) as [ns|] eqn:Er; [|discriminate].
    inversion H; subst. rewrite (IH ns eq_refl). cbn [bind].
    unfold literal. simpl. unfold define. simpl.
    rewrite (getNameForAuthScheme_not_index _ En). reflexivity.
Qed.

(** C7.  Let the schemes of an ApiAuth have the computed names [names], in
    declared order.  Under the mode [all], the security requirements are a
    single-element array whose one object maps every scheme name (each
    once, in order of first occurrence) to the empty scope list; under
    [any], they are one single-key object per scheme, in declared order,
    mapping that scheme's name to the empty scope list. *)
Theorem C7_security_requirements (schemes : list AuthScheme) (names : list string) :
  mapM getNameForAuthScheme schemes = Ok names ->
  constructEndpointSecurity (ApiAuth.make ALL schemes)
  = Ok [Obj (scopes (distinct_names names))]
  /\ (forall n, In n names <-> In n (distinct_names names))
  /\ (forall n, In n names -> get n (scopes (distinct_names names)) = Some (Arr []))
  /\ (NoDup names -> distinct_names names = names)
  /\ constructEndpointSecurity (ApiAuth.make ANY schemes)
     = Ok (map (fun n => Obj [(n, Arr [])]) names).
Proof.
  intro H. unfold constructEndpointSecurity.
  cbn [ApiAuth.requirement ApiAuth.schemes].
  assert (Hin : forall n, In n names <-> In n (distinct_names names)).
  { intro n. unfold distinct_names. rewrite add_names_incl. simpl. tauto. }
  split; [|split; [|split; [|split]]].
  - change (literal []) with (scopes []).
    rewrite (all_loop schemes H (NoDup_nil _) (Forall_nil _)). reflexivity.
  - exact Hin.
  - intros n Hn. apply get_scopes. apply Hin. exact Hn.
  - intro Hnd. unfold distinct_names. apply (add_names_nodup names []). exact Hnd.
  - apply any_loop. exact H.
Qed.

Lemma C7_security_requirements_witness :
  mapM getNameForAuthScheme [bearer; basic] = Ok ["BearerAuth"; "BasicAuth"]
  /\ constructEndpointSecurity (ApiAuth.make ALL [bearer; basic])
     = Ok [Obj [("BearerAuth", Arr []); ("BasicAuth", Arr [])]]
  /\ constructEndpointSecurity (ApiAuth.make ANY [bearer; basic])
     = Ok [Obj [("BearerAuth", Arr [])]; Obj [("BasicAuth", Arr [])]].
Proof.
  split; [reflexivity|].
  destruct (C7_security_requirements [bearer; basic] eq_refl)
    as (Hall & _ & _ & _ & Hany).
  split; [exact Hall | exact Hany].
Defined.

(* ================================================================== *)
(** ** Failures *)

Lemma is_ok_mapM {A B : Type} (f : A -> result B) (g : A -> bool) (xs : list A) :
  (forall x, is_ok (f x) = g x) ->
  is_ok (mapM f xs) = forallb g xs.
Proof.
  intro H. induction xs as [|x r IH]; simpl; [reflexivity|].
  rewrite <- (H x). destruct (f x); simpl; [|reflexivity].
  rewrite <- IH. destruct (mapM f r); reflexivity.
Qed.

Lemma is_ok_foldM {A S : Type} (f : S -> A -> result S) (g : A -> bool) (xs : list A) :
  (forall s x, is_ok (f s x) = g x) ->
  forall s, is_ok (foldM f xs s) = forallb g xs.
Proof.
  intro H. induction xs as [|x r IH]; simpl; intro s; [reflexivity|].
  rewrite <- (H s x). destruct (f s x); simpl; [apply IH | reflexivity].
Qed.

Lemma mapM_throw {A B : Type} (f : A -> result B) (xs : list A) (m : string) :
  mapM f xs = Throw m -> exists x, In x xs /\ f x = Throw m.
Proof.
  induction xs as [|x r IH]; simpl; intro H; [discriminate|].
  destruct (f x) eqn:E; simpl in H.
  - destruct (mapM f r); simpl in H; [discriminate|].
    inversion H; subst. destruct (IH eq_refl) as (y & Hy & Ey). eauto.
  - inversion H; subst. eauto.
Qed.

Lemma foldM_throw {A S : Type} (f : S -> A -> result S) (xs : list A) (m : string) :
  forall s, foldM f xs s = Throw m -> exists s' x, In x xs /\ f s' x = Throw m.
Proof.
  induction xs as [|x r IH]; simpl; intros s H; [discriminate|].
  destruct (f s x) eqn:E; simpl in H.
  - destruct (IH _ H) as (s' & y & Hy & Ey). eauto.
  - inversion H; subst. eauto.
Qed.

Lemma getNameForAuthScheme_ok (s : AuthScheme) :
  is_ok (getNameForAuthScheme s) = closed_scheme s.
Proof. destruct s; reflexivity. Qed.

Lemma getNameForAuthScheme_throw (s : AuthScheme) (m : string) :
  getNameForAuthScheme s = Throw m -> descriptive m = true.
Proof.
  destruct s; simpl; intro H; try discriminate.
  inversion H; subst. destruct tag; reflexivity.
Qed.

Lemma securitySchemeObject_ok (s : AuthScheme) :
  is_ok (securitySchemeObject s) = closed_scheme s.
Proof. destruct s; reflexivity. Qed.

Lemma securitySchemeObject_throw (s : AuthScheme) (m : string) :
  securitySchemeObject s = Throw m -> descriptive m = true.
Proof.
  destruct s; simpl; intro H; try discriminate.
  inversion H; subst. destruct tag; reflexivity.
Qed.

Lemma convertObject_step_ok (st : object * list string) (p : ObjectProperty.t) :
  is_ok (convertObject_step st p) = visited_ref (ObjectProperty.valueType p).
Proof.
  destruct st as [ps rs]. unfold convertObject_step.
  rewrite is_ok_bind by reflexivity. apply convertTypeReference_ok.
Qed.

Lemma convertSingleUnionType_ok (discriminant : string) (v : SingleUnionType.t) :
  is_ok (convertSingleUnionType discriminant v)
  = visited_ref (SingleUnionType.valueType v).
Proof.
  unfold convertSingleUnionType. rewrite is_ok_bind.
  - apply convertTypeReference_ok.
  - intro c. destruct (SingleUnionType.valueType v); reflexivity.
Qed.

Lemma convertShape_ok (d : TypeDeclaration.t) :
  is_ok (convertType d) = visited_shape (TypeDeclaration.shape d).
Proof.
  unfold convertType. rewrite is_ok_bind by reflexivity.
  destruct (TypeDeclaration.shape d) as [a|e|o|u|tag]; simpl.
  - unfold convertAlias. rewrite is_ok_bind by reflexivity.
    apply convertTypeReference_ok.
  - reflexivity.
  - rewrite convertObject_unfold. rewrite is_ok_bind by reflexivity.
    apply is_ok_foldM. apply convertObject_step_ok.
  - unfold convertUnion. rewrite is_ok_bind by reflexivity.
    apply is_ok_mapM. intro v. apply convertSingleUnionType_ok.
  - reflexivity.
Qed.

Lemma convertType_throw (d : TypeDeclaration.t) (m : string) :
  convertType d = Throw m -> descriptive m = true.
Proof.
  unfold convertType.
  destruct (TypeDeclaration.shape d) as [a|e|o|u|tag]; simpl.
  - unfold convertAlias.
    destruct (convertTypeReference (AliasTypeDeclaration.aliasOf a)) eqn:E;
      simpl; intro H; [discriminate|].
    inversion H; subst. eapply convertTypeReference_throw; eauto.
  - discriminate.
  - rewrite convertObject_unfold.
    destruct (foldM convertObject_step (ObjectTypeDeclaration.properties o) ([], []))
      eqn:E; simpl; intro H; [discriminate|].
    inversion H; subst.
    apply foldM_throw in E. destruct E as ([ps rs] & p & _ & E).
    unfold convertObject_step in E.
    destruct (convertTypeReference (ObjectProperty.valueType p)) eqn:Ep;
      simpl in E; [discriminate|].
    inversion E; subst. eapply convertTypeReference_throw; eauto.
  - unfold convertUnion.
    destruct (mapM (convertSingleUnionType (UnionTypeDeclaration.discriminant u))
                   (UnionTypeDeclaration.types u)) eqn:E;
      simpl; intro H; [discriminate|].
    inversion H; subst.
    apply mapM_throw in E. destruct E as (v & _ & E).
    unfold convertSingleUnionType in E.
    destruct (convertTypeReference (SingleUnionType.valueType v)) eqn:Ev;
      simpl in E.
    + destruct (SingleUnionType.valueType v); discriminate.
    + inversion E; subst. eapply convertTypeReference_throw; eauto.
  - intro H. inversion H; subst. reflexivity.
Qed.

Lemma constructEndpointSecurity_ok (a : ApiAuth.t) :
  is_ok (constructEndpointSecurity a) = closed_auth a.
Proof.
  unfold constructEndpointSecurity, closed_auth.
  destruct (ApiAuth.requirement a); simpl.
  - rewrite is_ok_bind by reflexivity.
    apply is_ok_foldM. intros s x. rewrite is_ok_bind by reflexivity.
    apply getNameForAuthScheme_ok.
  - apply is_ok_mapM. intro x.
    rewrite is_ok_bind by reflexivity. apply getNameForAuthScheme_ok.
  - reflexivity.
Qed.

Lemma constructEndpointSecurity_throw (a : ApiAuth.t) (m : string) :
  constructEndpointSecurity a = Throw m -> descriptive m = true.
Proof.
  unfold constructEndpointSecurity.
  destruct (ApiAuth.requirement a); simpl.
  - match goal with |- context [foldM ?f ?xs ?s] =>
      destruct (foldM f xs s) eqn:E end; simpl; intro H; [discriminate|].
    inversion H; subst. apply foldM_throw in E.
    destruct E as (s' & x & _ & E).
    destruct (getNameForAuthScheme x) eqn:En; simpl in E; [discriminate|].
    inversion E; subst. eapply getNameForAuthScheme_throw; eauto.
  - intro H. apply mapM_throw in H. destruct H as (x & _ & E).
    destruct (getNameForAuthScheme x) eqn:En; simpl in E; [discriminate|].
    inversion E; subst. eapply getNameForAuthScheme_throw; eauto.
  - intro H. inversion H; subst. destruct raw; reflexivity.
Qed.

Lemma constructSecuritySchemes_ok (a : ApiAuth.t) :
  is_ok (constructSecuritySchemes a) = forallb closed_scheme (ApiAuth.schemes a).
Proof.
  unfold constructSecuritySchemes. apply is_ok_foldM. intros s x.
  destruct x; reflexivity.
Qed.

Lemma constructSecuritySchemes_throw (a : ApiAuth.t) (m : string) :
  constructSecuritySchemes a = Throw m -> descriptive m = true.
Proof.
  unfold constructSecuritySchemes. intro H. apply foldM_throw in H.
  destruct H as (s' & x & _ & E).
  destruct (getNameForAuthScheme x) eqn:En; simpl in E.
  - destruct (securitySchemeObject x) eqn:Es; simpl in E; [discriminate|].
    inversion E; subst. eapply securitySchemeObject_throw; eauto.
  - inversion E; subst. eapply getNameForAuthScheme_throw; eauto.
Qed.

Lemma closed_visited_shape (s : Shape) :
  closed_shape s = true -> visited_shape s = true.
Proof.
  destruct s as [a|e|o|u|tag]; simpl; auto.
  - apply closed_visited.
  - unfold closed_object. rewrite !forallb_forall. intros H p Hp.
    apply closed_visited. apply H. exact Hp.
  - unfold closed_union. rewrite !forallb_forall. intros H v Hv.
    apply closed_visited. apply H. exact Hv.
Qed.

(** C8 fails as stated: a type reference that carries a primitive kind
    outside the closed set, as the key type of a map, converts without
    error, alone and as the target of an alias; the key type is dropped. *)
Lemma C8_counterexample :
  closed_ref odd_key_map = false
  /\ convertTypeReference odd_key_map
     = Ok [("type", Str "object");
           ("additionalProperties", Obj [("type", Str "string")])]
  /\ is_ok (convertType
              (TypeDeclaration.make (DeclaredTypeName.make [] "labels") None
                 (T_alias (AliasTypeDeclaration.make odd_key_map)))) = true.
Proof. repeat split; vm_compute; reflexivity. Qed.

(** [constructSecuritySchemes] does not look at the requirement mode. *)
Example security_schemes_ignore_requirement :
  constructSecuritySchemes
    (ApiAuth.make (AuthSchemesRequirement_other "SOME") [bearer])
  = Ok [("BearerAuth", Obj [("type", Str "http"); ("scheme", Str "bearer")])].
Proof. vm_compute. reflexivity. Qed.

(** C8, amended.  A converter fails exactly when a tag outside the closed
    set occurs at a position it visits: [convertTypeReference] and
    [convertType] visit the shape and every nested type reference except
    the key type of a map; [constructEndpointSecurity] visits the
    requirement mode and every scheme; [constructSecuritySchemes] visits
    every scheme and not the requirement mode.  Every failure carries the
    message of an unknown-variant branch, and every input built only from
    closed-set variants succeeds: there is no other error condition. *)
Theorem C8_failures :
  (forall t, is_ok (convertTypeReference t) = visited_ref t)
  /\ (forall d, is_ok (convertType d) = visited_shape (TypeDeclaration.shape d))
  /\ (forall a, is_ok (constructEndpointSecurity a) = closed_auth a)
  /\ (forall a, is_ok (constructSecuritySchemes a)
                = forallb closed_scheme (ApiAuth.schemes a))
  /\ (forall t, closed_ref t = true -> is_ok (convertTypeReference t) = true)
  /\ (forall d, closed_shape (TypeDeclaration.shape d) = true ->
                is_ok (convertType d) = true)
  /\ (forall a, closed_auth a = true ->
                is_ok (constructEndpointSecurity a) = true
                /\ is_ok (constructSecuritySchemes a) = true)
  /\ (forall t m, convertTypeReference t = Throw m -> descriptive m = true)
  /\ (forall d m, convertType d = Throw m -> descriptive m = true)
  /\ (forall a m, constructEndpointSecurity a = Throw m -> descriptive m = true)
  /\ (forall a m, constructSecuritySchemes a = Throw m -> descriptive m = true).
Proof.
  repeat split.
  - apply convertTypeReference_ok.
  - apply convertShape_ok.
  - apply constructEndpointSecurity_ok.
  - apply constructSecuritySchemes_ok.
  - intros t H. rewrite convertTypeReference_ok. apply closed_visited. exact H.
  - intros d H. rewrite convertShape_ok. apply closed_visited_shape. exact H.
  - rewrite constructEndpointSecurity_ok. assumption.
  - rewrite constructSecuritySchemes_ok.
    match goal with H : closed_auth _ = true |- _ =>
      unfold closed_auth in H; apply andb_true_iff in H; tauto end.
  - apply convertTypeReference_throw.
  - apply convertType_throw.
  - apply constructEndpointSecurity_throw.
  - apply constructSecuritySchemes_throw.
Qed.

(* ================================================================== *)
(** ** The alphabet of schema names *)

Module LodashCharset.
Import Lodash LodashFacts.

Lemma all_chars_app (P : ascii -> bool) (a b : string) :
  all_chars P (a ++ b) = all_chars P a && all_chars P b.
Proof.
  induction a as [|c r IH]; simpl; [reflexivity|].
  rewrite IH. apply andb_assoc.
Qed.

Lemma all_chars_imp (P Q : ascii -> bool) (s : string) :
  (forall c, P c = true -> Q c = true) ->
  all_chars P s = true -> all_chars Q s = true.
Proof.
  intro H. induction s as [|c r IH]; simpl; intro Hs; [reflexivity|].
  apply andb_true_iff in Hs. destruct Hs as [Hc Hr].
  rewrite (H c Hc). simpl. apply IH. exact Hr.
Qed.

Lemma all_chars_and (P Q : ascii -> bool) (s : string) :
  all_chars P s = true -> all_chars Q s = true ->
  all_chars (fun c => P c && Q c) s = true.
Proof.
  induction s as [|c r IH]; simpl; intros HP HQ; [reflexivity|].
  apply andb_true_iff in HP. apply andb_true_iff in HQ.
  destruct HP as [-> HP], HQ as [-> HQ]. simpl. apply IH; assumption.
Qed.

(** [took P k m s n]: the continuation [k] produced [m] after a word [w] of
    [P]-characters was consumed from [s], starting from the count [n]. *)
Definition took (P : ascii -> bool) (k : cont) (m : nat) (s : string) (n : nat) : Prop :=
  exists prev' s' w,
    k prev' s' (n + String.length w) = Some m
    /\ s = (w ++ s')%string /\ all_chars P w = true.

Lemma length_append (a b : string) :
  String.length (a ++ b) = String.length a + String.length b.
Proof. induction a as [|c r IH]; simpl; [reflexivity | rewrite IH; reflexivity]. Qed.

Lemma took_here (P : ascii -> bool) (k : cont) (m : nat) (prev : option ascii)
      (s : string) (n : nat) :
  k prev s n = Some m -> took P k m s n.
Proof.
  intro H. exists prev, s, EmptyString. simpl. rewrite Nat.add_0_r. auto.
Qed.

Lemma took_step (P : ascii -> bool) (k : cont) (m : nat) (c : ascii)
      (r : string) (n : nat) :
  P c = true -> took P k m r (S n) -> took P k m (String c r) n.
Proof.
  intros Hc (prev' & s' & w & Hk & -> & Hw).
  exists prev', s', (String c w). simpl. rewrite Hc, Hw.
  rewrite Nat.add_succ_r. simpl in Hk. auto.
Qed.

Lemma took_seq (P : ascii -> bool) (k1 k2 : cont) (m : nat) (s : string) (n : nat) :
  took P k1 m s n ->
  (forall prev' s' n', k1 prev' s' n' = Some m -> took P k2 m s' n') ->
  took P k2 m s n.
Proof.
  intros (p1 & s1 & w1 & H1 & -> & Hw1) H.
  destruct (H _ _ _ H1) as (p2 & s2 & w2 & H2 & -> & Hw2).
  exists p2, s2, (w1 ++ w2)%string. repeat split.
  - rewrite <- H2. f_equal. rewrite length_append. lia.
  - symmetry. apply string_app_assoc.
  - rewrite all_chars_app, Hw1, Hw2. reflexivity.
Qed.

Lemma star_took (P p : ascii -> bool) (k : cont) (s : string) :
  (forall c, p c = true -> P c = true) ->
  forall prev n m, star p k prev s n = Some m -> took P k m s n.
Proof.
  intro Hp. induction s as [|c r IH]; simpl; intros prev n m H.
  - eapply took_here; eauto.
  - destruct (p c) eqn:Ec; [|eapply took_here; eauto].
    destruct (star p k (Some c) r (S n)) eqn:E; simpl in H.
    + inversion H; subst. apply took_step; [auto|]. eapply IH; eauto.
    + eapply took_here; eauto.
Qed.

Lemma lit_took (P : ascii -> bool) (l : string) (k : cont) :
  all_chars P l = true ->
  forall prev s n m, lit l k prev s n = Some m -> took P k m s n.
Proof.
  induction l as [|a l' IH]; simpl; intros Hl prev s n m H.
  - eapply took_here; eauto.
  - apply andb_true_iff in Hl. destruct Hl as [Ha Hl].
    destruct s as [|c r]; [discriminate|].
    destruct (Ascii.eqb a c) eqn:E; [|discriminate].
    apply Ascii.eqb_eq in E. subst c.
    apply took_step; [exact Ha|]. eapply IH; eauto.
Qed.

(** What a match consumes is a word of [P]-characters at the head of the
    input. *)
Lemma exec_took (P : ascii -> bool) (r : regex) :
  consumes P r ->
  forall k prev s n m, exec r k prev s n = Some m -> took P k m s n.
Proof.
  induction r as [p|l|a IHa b IHb|a IHa b IHb|p|p|p|a IHa|a IHa| |];
    simpl; intros Hc k prev s n m H.
  - destruct s as [|c r']; [discriminate|].
    destruct (p c) eqn:E; [|discriminate].
    apply took_step; [auto|]. eapply took_here; eauto.
  - eapply lit_took; eauto.
  - destruct Hc as [Ha Hb]. eapply took_seq.
    + eapply IHa; eauto.
    + intros. eapply IHb; eauto.
  - destruct Hc as [Ha Hb].
    destruct (exec a k prev s n) eqn:E; simpl in H.
    + inversion H; subst. eapply IHa; eauto.
    + eapply IHb; eauto.
  - destruct s as [|c r']; [eapply took_here; eauto|].
    destruct (p c) eqn:E; [|eapply took_here; eauto].
    destruct (k (Some c) r' (S n)) eqn:Ek; simpl in H.
    + inversion H; subst. apply took_step; [auto|]. eapply took_here; eauto.
    + eapply took_here; eauto.
  - eapply star_took; eauto.
  - destruct s as [|c r']; [discriminate|].
    destruct (p c) eqn:E; [|discriminate].
    apply took_step; [auto|]. eapply star_took; eauto.
  - destruct (exec a final prev s n); [|discriminate]. eapply took_here; eauto.
  - destruct (exec a final prev s n); [discriminate|]. eapply took_here; eauto.
  - destruct s; [|discriminate]. eapply took_here; eauto.
  - destruct (xorb (is_word prev) (is_word (peek s))); [|discriminate].
    eapply took_here; eauto.
Qed.

Lemma substring_head (w s : string) :
  substring 0 (String.length w) (w ++ s) = w.
Proof.
  induction w as [|c r IH]; simpl.
  - destruct s; reflexivity.
  - rewrite IH. reflexivity.
Qed.

Lemma match_here_word (P : ascii -> bool) (r : regex) (prev : option ascii)
      (s : string) (m : nat) :
  consumes P r -> match_here r prev s = Some m ->
  all_chars P (substring 0 m s) = true.
Proof.
  intros Hc H. apply (exec_took P r Hc) in H.
  destruct H as (prev' & s' & w & Hk & -> & Hw).
  unfold final in Hk. inversion Hk; subst. simpl.
  rewrite substring_head. exact Hw.
Qed.

Lemma all_chars_substring (Q : ascii -> bool) (s : string) :
  all_chars Q s = true -> forall m, all_chars Q (substring 0 m s) = true.
Proof.
  induction s as [|c r IH]; simpl; intros H m.
  - destruct m; reflexivity.
  - apply andb_true_iff in H. destruct H as [Hc Hr].
    destruct m; simpl; [reflexivity|]. rewrite Hc. simpl. apply IH. exact Hr.
Qed.

(** The words of a global match are made of code units of the text that
    the expression consumes. *)
Lemma match_all_words (P Q : ascii -> bool) (r : regex) :
  consumes P r ->
  forall s prev skip, all_chars Q s = true ->
  Forall (fun w => all_chars (fun c => P c && Q c) w = true)
         (match_all r prev s skip).
Proof.
  intros Hc. induction s as [|c s' IH]; intros prev skip HQ.
  - destruct skip; cbn [match_all]; [|constructor].
    destruct (match_here r prev EmptyString) as [n|] eqn:E; constructor; [|constructor].
    apply all_chars_and; [eapply match_here_word; eauto|].
    apply all_chars_substring. exact HQ.
  - assert (HQ' : all_chars Q s' = true).
    { simpl in HQ. apply andb_true_iff in HQ. tauto. }
    destruct skip; cbn [match_all]; [|apply IH; exact HQ'].
    destruct (match_here r prev (String c s')) as [n|] eqn:E.
    + constructor; [|apply IH; exact HQ'].
      apply all_chars_and; [eapply match_here_word; eauto|].
      apply all_chars_substring. exact HQ.
    + apply IH; exact HQ'.
Qed.

Lemma consumes_reUnicodeWord :
  consumes (fun c => upper c || lower c || digit c) reUnicodeWord.
Proof.
  unfold reUnicodeWord, rsOrdUpper, rsOrdLower. cbn [consumes].
  repeat split; try reflexivity; intro c; by_cases_on c.
Qed.

Lemma consumes_reAsciiWord :
  consumes (fun c => negb (rng 0 47 c || rng 58 64 c || rng 91 96 c || rng 123 127 c))
           reAsciiWord.
Proof. unfold reAsciiWord. cbn [consumes]. auto. Qed.

Lemma unicode_word_char (c : ascii) :
  (upper c || lower c || digit c) && negb (latin1_letter c) = true ->
  alnum c = true.
Proof. by_cases_on c. Qed.

Lemma ascii_word_char (c : ascii) :
  negb (rng 0 47 c || rng 58 64 c || rng 91 96 c || rng 123 127 c) && basic c = true ->
  alnum c = true.
Proof. by_cases_on c. Qed.

Lemma deburrLetter_not_latin (c : ascii) :
  all_chars (fun c => negb (latin1_letter c)) (deburrLetter c) = true.
Proof. by_cases_on c. Qed.

Lemma deburr_not_latin (s : string) :
  all_chars (fun c => negb (latin1_letter c)) (deburr s) = true.
Proof.
  induction s as [|c r IH]; simpl; [reflexivity|].
  rewrite all_chars_app, deburrLetter_not_latin, IH. reflexivity.
Qed.

Lemma removeApos_all (Q : ascii -> bool) (s : string) :
  all_chars Q s = true -> all_chars Q (removeApos s) = true.
Proof.
  induction s as [|c r IH]; simpl; intro H; [reflexivity|].
  apply andb_true_iff in H. destruct H as [Hc Hr].
  destruct (one 39 c); simpl; [|rewrite Hc; simpl]; apply IH; exact Hr.
Qed.

Lemma or_else_none (a b : option nat) : or_else a b = None -> b = None.
Proof. destruct a; simpl; [discriminate | auto]. Qed.

(** A text on which [hasUnicodeWord] is false is made of [[a-zA-Z0-9 ]]. *)
Lemma hasUnicodeWord_false (s : string) :
  forall prev, test reHasUnicodeWord prev s = false -> all_chars basic s = true.
Proof.
  induction s as [|c r IH]; intros prev H; [reflexivity|].
  cbn [test] in H.
  destruct (match_here reHasUnicodeWord prev (String c r)) eqn:E; [discriminate|].
  simpl. rewrite (IH _ H), andb_true_r.
  unfold match_here, reHasUnicodeWord in E. cbn [exec] in E.
  apply or_else_none in E.
  unfold basic. destruct (az c || AZ c || digit c || one 32 c); [reflexivity|].
  simpl in E. discriminate.
Qed.

(** The words [camelCase] works on are made of ASCII letters and digits. *)
Lemma words_alnum (s : string) :
  Forall (fun w => all_chars alnum w = true) (words (removeApos (deburr s))).
Proof.
  unfold words.
  destruct (hasUnicodeWord (removeApos (deburr s))) eqn:E.
  - unfold unicodeWords.
    eapply Forall_impl;
      [| apply (match_all_words _ (fun c => negb (latin1_letter c)) _
                                consumes_reUnicodeWord)].
    + intros w Hw. eapply all_chars_imp; [|exact Hw].
      intros c Hc. apply unicode_word_char. exact Hc.
    + apply removeApos_all. apply deburr_not_latin.
  - unfold asciiWords.
    eapply Forall_impl;
      [| apply (match_all_words _ basic _ consumes_reAsciiWord)].
    + intros w Hw. eapply all_chars_imp; [|exact Hw].
      intros c Hc. apply ascii_word_char. exact Hc.
    + eapply hasUnicodeWord_false. exact E.
Qed.

Lemma lowerChar_alnum (c : ascii) : alnum c = true -> alnum (lowerChar c) = true.
Proof. by_cases_on c. Qed.

Lemma upperChar_alnum (c : ascii) :
  alnum c = true ->
  all_chars alnum (upperChar c) = true /\ head_not_lower (upperChar c) = true
  /\ upperChar c <> "".
Proof.
  destruct c as [[] [] [] [] [] [] [] []]; vm_compute; intro H;
    try discriminate H; repeat split; discriminate.
Qed.

Lemma toLowerCase_alnum (s : string) :
  all_chars alnum s = true -> all_chars alnum (toLowerCase s) = true.
Proof.
  induction s as [|c r IH]; simpl; intro H; [reflexivity|].
  apply andb_true_iff in H. destruct H as [Hc Hr].
  rewrite (lowerChar_alnum _ Hc), (IH Hr). reflexivity.
Qed.

Lemma upperFirst_alnum (s : string) :
  all_chars alnum s = true ->
  all_chars alnum (upperFirst s) = true /\ head_not_lower (upperFirst s) = true.
Proof.
  destruct s as [|c r]; simpl; intro H; [split; reflexivity|].
  apply andb_true_iff in H. destruct H as [Hc Hr].
  destruct (upperChar_alnum c Hc) as (Ha & Hh & Hn).
  split.
  - rewrite all_chars_app, Ha, Hr. reflexivity.
  - destruct (upperChar c); [congruence | exact Hh].
Qed.

Lemma compound_alnum (ws : list string) :
  Forall (fun w => all_chars alnum w = true) ws ->
  forall result index, all_chars alnum result = true ->
  all_chars alnum (compound result index ws) = true.
Proof.
  induction 1 as [|w r Hw Hr IH]; simpl; intros result index H; [exact H|].
  apply IH. rewrite all_chars_app, H. simpl.
  destruct (index =? 0)%nat.
  - apply toLowerCase_alnum. exact Hw.
  - unfold capitalize. apply upperFirst_alnum.
    do 2 apply toLowerCase_alnum. exact Hw.
Qed.

Lemma camelCase_alnum (s : string) : all_chars alnum (camelCase s) = true.
Proof.
  unfold camelCase. apply compound_alnum; [apply words_alnum | reflexivity].
Qed.

End LodashCharset.

(** X1. A resolved schema name is made of ASCII letters and digits only,
    and it does not start with a lower-case letter; so is the part of a
    reference after "#/components/schemas/". *)
Theorem schema_name_alphabet (D : DeclaredTypeName.t) :
  Lodash.all_chars Lodash.alnum (getNameFromDeclaredTypeName D) = true
  /\ Lodash.head_not_lower (getNameFromDeclaredTypeName D) = true
  /\ exists n, getReferenceFromDeclaredTypeName D = ("#/components/schemas/" ++ n)%string
       /\ Lodash.all_chars Lodash.alnum n = true.
Proof.
  unfold getReferenceFromDeclaredTypeName, getNameFromDeclaredTypeName.
  destruct (LodashCharset.upperFirst_alnum _
              (LodashCharset.camelCase_alnum
                 (join " " (DeclaredTypeName.fernFilepath D ++ [DeclaredTypeName.name D]))))
    as [Ha Hh].
  split; [exact Ha|]. split; [exact Hh|].
  eexists. split; [reflexivity | exact Ha].
Qed.

(* ================================================================== *)
(** ** What a schema keeps of a type reference *)

Lemma kind_of_render_mut :
  (forall t k, kind_of t = Some k -> convertTypeReference t = render k)
  /\ (forall c k, kind_of_container c = Some k -> convertContainerType c = render k).
Proof.
  apply TypeReference_ContainerType_ind; simpl; intros; auto;
    try (inversion H; subst; reflexivity); try discriminate.
  - destruct (closed_primitive primitive); inversion H; subst. reflexivity.
  - destruct (kind_of list_) as [k'|]; inversion H0; subst.
    rewrite (H k' eq_refl). simpl. destruct (render k'); reflexivity.
  - destruct (kind_of set_) as [k'|]; inversion H0; subst.
    rewrite (H k' eq_refl). simpl. destruct (render k'); reflexivity.
  - destruct (kind_of valueType) as [k'|]; inversion H1; subst.
    rewrite (H0 k' eq_refl). simpl. destruct (render k'); reflexivity.
Qed.

Lemma kind_of_visited_mut :
  (forall t, visited_ref t = true -> exists k, kind_of t = Some k)
  /\ (forall c, visited_container c = true -> exists k, kind_of_container c = Some k).
Proof.
  apply TypeReference_ContainerType_ind; simpl; intros; eauto; try discriminate.
  - rewrite H. eauto.
  - destruct (H H0) as [k ->]. simpl. eauto.
  - destruct (H H0) as [k ->]. simpl. eauto.
  - destruct (H0 H1) as [k ->]. simpl. eauto.
Qed.

Lemma kind_of_converted (t : TypeReference) (o : object) :
  convertTypeReference t = Ok o ->
  exists k, kind_of t = Some k /\ render k = Ok o.
Proof.
  intro H.
  assert (Hv : visited_ref t = true).
  { rewrite <- convertTypeReference_ok, H. reflexivity. }
  destruct (proj1 kind_of_visited_mut t Hv) as [k Hk].
  exists k. split; [exact Hk|].
  rewrite <- (proj1 kind_of_render_mut t k Hk). exact H.
Qed.

Lemma convertPrimitiveType_injective (p q : PrimitiveType) (o : object) :
  convertPrimitiveType p = Ok o -> convertPrimitiveType q = Ok o -> p = q.
Proof.
  destruct p; destruct q; simpl; intros H1 H2;
    try discriminate; try reflexivity;
    rewrite <- H2 in H1; discriminate.
Qed.

(** Different kinds have different schemas. *)
Lemma render_injective (k1 : kind) :
  forall k2 o, render k1 = Ok o -> render k2 = Ok o -> k1 = k2.
Proof.
  induction k1 as [|n|p|items IH|values IH]; intros k2 o H1 H2.
  - destruct k2 as [|n2|p2|i2|v2]; simpl in *; inversion H1; subst;
      try discriminate; try reflexivity.
    + destruct p2; discriminate.
    + destruct (render i2); discriminate.
    + destruct (render v2); discriminate.
  - destruct k2 as [|n2|p2|i2|v2]; simpl in *; inversion H1; subst;
      try discriminate.
    + inversion H2. reflexivity.
    + destruct p2; discriminate.
    + destruct (render i2); discriminate.
    + destruct (render v2); discriminate.
  - destruct k2 as [|n2|p2|i2|v2]; simpl in *.
    + inversion H2; subst. destruct p; discriminate.
    + inversion H2; subst. destruct p; discriminate.
    + f_equal. eapply convertPrimitiveType_injective; eauto.
    + destruct (render i2); simpl in H2; [|discriminate].
      inversion H2; subst. destruct p; discriminate.
    + destruct (render v2); simpl in H2; [|discriminate].
      inversion H2; subst. destruct p; discriminate.
  - simpl in H1. destruct (render items) as [oi|] eqn:Ei; simpl in H1; [|discriminate].
    inversion H1; subst.
    destruct k2 as [|n2|p2|i2|v2]; simpl in H2; try discriminate.
    + destruct p2; discriminate.
    + destruct (render i2) as [o2|] eqn:E2; simpl in H2; [|discriminate].
      inversion H2; subst. f_equal. eapply IH; eauto.
    + destruct (render v2); simpl in H2; discriminate.
  - simpl in H1. destruct (render values) as [ov|] eqn:Ev; simpl in H1; [|discriminate].
    inversion H1; subst.
    destruct k2 as [|n2|p2|i2|v2]; simpl in H2; try discriminate.
    + destruct p2; discriminate.
    + destruct (render i2); simpl in H2; discriminate.
    + destruct (render v2) as [o2|] eqn:E2; simpl in H2; [|discriminate].
      inversion H2; subst. f_equal. eapply IH; eauto.
Qed.

(** X2. Two type references that convert have the same schema exactly
    when they have the same kind: conversion forgets optional wrappers,
    list versus set, unknown versus void and the key type of a map,
    compares named references by resolved schema name, and forgets nothing
    else. *)
Theorem same_schema_iff_same_kind (t1 t2 : TypeReference) (o1 o2 : object) :
  convertTypeReference t1 = Ok o1 ->
  convertTypeReference t2 = Ok o2 ->
  (o1 = o2 <-> kind_of t1 = kind_of t2).
Proof.
  intros H1 H2.
  destruct (kind_of_converted _ H1) as (k1 & Hk1 & Hr1).
  destruct (kind_of_converted _ H2) as (k2 & Hk2 & Hr2).
  rewrite Hk1, Hk2. split.
  - intros ->. f_equal. eapply render_injective; eauto.
  - intro E. inversion E; subst. rewrite Hr1 in Hr2. inversion Hr2. reflexivity.
Qed.

Lemma same_schema_iff_same_kind_witness :
  exists o1 o2,
    convertTypeReference
      (TR_container (CT_list (TR_container (CT_optional (TR_primitive STRING)))))
    = Ok o1
    /\ convertTypeReference (TR_container (CT_set (TR_primitive STRING))) = Ok o2
    /\ (o1 = o2 <->
        kind_of (TR_container (CT_list (TR_container (CT_optional (TR_primitive STRING)))))
        = kind_of (TR_container (CT_set (TR_primitive STRING)))).
Proof.
  eexists. eexists. split; [reflexivity|]. split; [reflexivity|].
  apply (same_schema_iff_same_kind
    (TR_container (CT_list (TR_container (CT_optional (TR_primitive STRING)))))
    (TR_container (CT_set (TR_primitive STRING)))
    eq_refl eq_refl).
Defined.

(* ================================================================== *)
(** ** Lookup after assignment *)

Lemma get_replace_same (k : string) (v : value) (o : object) :
  has k o = true -> get k (replace k v o) = Some v.
Proof.
  unfold has. induction o as [|[k' v'] r IH]; simpl; [discriminate|].
  destruct (String.eqb k k') eqn:E; simpl; rewrite E; auto.
Qed.

Lemma get_replace_other (k k' : string) (v : value) (o : object) :
  k <> k' -> get k (replace k' v o) = get k o.
Proof.
  intro Hn. induction o as [|[k2 v2] r IH]; simpl; [reflexivity|].
  destruct (String.eqb k' k2) eqn:E; simpl.
  - apply String.eqb_eq in E. subst k2.
    rewrite eqb_neq_false by exact Hn. reflexivity.
  - rewrite IH. reflexivity.
Qed.

Lemma get_insert_index_same (n : N) (k : string) (v : value) (o : object) :
  has k o = false -> get k (insert_index n k v o) = Some v.
Proof.
  unfold has. induction o as [|[k' v'] r IH]; simpl; intro H.
  - rewrite String.eqb_refl. reflexivity.
  - destruct (String.eqb k k') eqn:E; [discriminate|].
    destruct (array_index k') as [m|]; [destruct (m <? n)%N|]; simpl;
      rewrite ?E, ?String.eqb_refl; auto.
Qed.

Lemma get_insert_index_other (n : N) (k k' : string) (v : value) (o : object) :
  k <> k' -> get k (insert_index n k' v o) = get k o.
Proof.
  intro Hn. induction o as [|[k2 v2] r IH]; simpl.
  - rewrite eqb_neq_false by exact Hn. reflexivity.
  - destruct (array_index k2) as [m|]; [destruct (m <? n)%N|]; simpl;
      rewrite ?IH, ?(eqb_neq_false Hn); reflexivity.
Qed.

Lemma get_app_last_same (k : string) (v : value) (o : object) :
  has k o = false -> get k (o ++ [(k, v)]) = Some v.
Proof.
  unfold has. intro H. rewrite get_app_None.
  - simpl. rewrite String.eqb_refl. reflexivity.
  - destruct (get k o); [discriminate | reflexivity].
Qed.

Lemma get_app_last_other (k k' : string) (v : value) (o : object) :
  k <> k' -> get k (o ++ [(k', v)]) = get k o.
Proof.
  intro Hn. induction o as [|[k2 v2] r IH]; simpl.
  - rewrite eqb_neq_false by exact Hn. reflexivity.
  - rewrite IH. reflexivity.
Qed.

Lemma get_define_same (k : string) (v : value) (o : object) :
  get k (define k v o) = Some v.
Proof.
  unfold define. destruct (has k o) eqn:E.
  - apply get_replace_same. exact E.
  - destruct (array_index k).
    + apply get_insert_index_same. exact E.
    + apply get_app_last_same. exact E.
Qed.

Lemma get_define_other (k k' : string) (v : value) (o : object) :
  k <> k' -> get k (define k' v o) = get k o.
Proof.
  intro Hn. unfold define. destruct (has k' o).
  - apply get_replace_other. exact Hn.
  - destruct (array_index k').
    + apply get_insert_index_other. exact Hn.
    + apply get_app_last_other. exact Hn.
Qed.

(** What was last assigned to a key other than [__proto__] is what a
    lookup of the key finds. *)
Lemma get_assign_same (k : string) (v : value) (o : object) :
  k <> "__proto__" -> get k (assign k v o) = Some v.
Proof.
  intro Hp. unfold assign. destruct (has k o) eqn:E.
  - apply get_replace_same. exact E.
  - rewrite eqb_neq_false by exact Hp. apply get_define_same.
Qed.

Lemma get_assign_other (k k' : string) (v : value) (o : object) :
  k <> k' -> get k (assign k' v o) = get k o.
Proof.
  intro Hn. unfold assign. destruct (has k' o).
  - apply get_replace_other. exact Hn.
  - destruct (String.eqb k' "__proto__"); [reflexivity|].
    apply get_define_other. exact Hn.
Qed.

(** Assignment never creates the property [__proto__]. *)
Lemma assign_no_proto (k : string) (v : value) (o : object) :
  get "__proto__" o = None -> get "__proto__" (assign k v o) = None.
Proof.
  intro H. destruct (String.eqb k "__proto__") eqn:E.
  - apply String.eqb_eq in E. subst k. unfold assign, has. rewrite H.
    simpl. exact H.
  - rewrite get_assign_other; [exact H|].
    intro Heq. subst k. rewrite String.eqb_refl in E. discriminate.
Qed.

Lemma convertObject_loop_lookup (k : string) (props : list ObjectProperty.t) :
  k <> "__proto__" ->
  forall ps rs ps' rs' found,
    foldM convertObject_step props (ps, rs) = Ok (ps', rs') ->
    key_state k found ps ->
    key_state k (last_property k props found) ps'.
Proof.
  intro Hk. induction props as [|p r IH]; simpl; intros ps rs ps' rs' found H Hst.
  - inversion H; subst. exact Hst.
  - destruct (convertTypeReference (ObjectProperty.valueType p)) as [c|m] eqn:Ec;
      [|discriminate].
    cbn [bind] in H. rewrite (with_description _ _ Ec) in H.
    eapply IH; [exact H|].
    destruct (String.eqb k (ObjectProperty.key p)) eqn:E.
    + apply String.eqb_eq in E. subst k.
      exists c. split; [exact Ec|]. apply get_assign_same. exact Hk.
    + assert (Hn : k <> ObjectProperty.key p).
      { intro Heq. subst k. rewrite String.eqb_refl in E. discriminate. }
      destruct found as [q|]; simpl in *.
      * destruct Hst as (c' & Hc' & Hg). exists c'. split; [exact Hc'|].
        rewrite get_assign_other by exact Hn. exact Hg.
      * rewrite get_assign_other by exact Hn. exact Hst.
Qed.

Lemma convertObject_loop_no_proto (props : list ObjectProperty.t) :
  forall ps rs ps' rs',
    foldM convertObject_step props (ps, rs) = Ok (ps', rs') ->
    get "__proto__" ps = None -> get "__proto__" ps' = None.
Proof.
  induction props as [|p r IH]; simpl; intros ps rs ps' rs' H Hp.
  - inversion H; subst. exact Hp.
  - destruct (convertTypeReference (ObjectProperty.valueType p)) as [c|m];
      [|discriminate].
    cbn [bind] in H. eapply IH; [exact H|]. apply assign_no_proto. exact Hp.
Qed.

(** X3. In the schema of an object declaration over the closed set, the
    properties mapping holds, under each key other than [__proto__] that
    some property declares, the schema of the last declared property with
    that key (its converted value type, then its docs as description); it
    holds nothing under any other key, and never has a [__proto__]
    entry.  This is so for every kind of key, repeated and integer-like
    keys included. *)
Theorem object_property_lookup (o : ObjectTypeDeclaration.t) (docs : option string) :
  closed_object o = true ->
  exists ps,
    convertObject o docs
    = Ok ([("type", Str "object");
           ("description", optional_string docs);
           ("properties", Obj ps);
           ("required", Arr (map Str (required_keys (ObjectTypeDeclaration.properties o))))]
          ++ allOf_of (ObjectTypeDeclaration.extends o))
    /\ get "__proto__" ps = None
    /\ forall k, k <> "__proto__" ->
         key_state k (last_property k (ObjectTypeDeclaration.properties o) None) ps.
Proof.
  intro Hc. destruct (convertObject_closed o docs Hc) as (ps & Hout & Hloop).
  exists ps. split; [exact Hout|]. split.
  - eapply convertObject_loop_no_proto; [exact Hloop | reflexivity].
  - intros k Hk. eapply convertObject_loop_lookup; [exact Hk | exact Hloop |].
    reflexivity.
Qed.

Lemma object_property_lookup_witness :
  exists ps,
    convertObject
      (ObjectTypeDeclaration.make []
         [ ObjectProperty.make "a" (TR_primitive STRING) None;
           ObjectProperty.make "7" (TR_primitive BOOLEAN) None;
           ObjectProperty.make "a" (TR_primitive INTEGER) (Some "count") ]) None
    = Ok [("type", Str "object");
          ("description", Undefined);
          ("properties", Obj ps);
          ("required", Arr [Str "a"; Str "7"; Str "a"])]
    /\ get "a" ps = Some (Obj [("type", Str "integer"); ("description", Str "count")])
    /\ get "b" ps = None.
Proof.
  destruct (object_property_lookup
              (ObjectTypeDeclaration.make []
                 [ ObjectProperty.make "a" (TR_primitive STRING) None;
                   ObjectProperty.make "7" (TR_primitive BOOLEAN) None;
                   ObjectProperty.make "a" (TR_primitive INTEGER) (Some "count") ])
              None eq_refl) as (ps & Hout & _ & Hget).
  exists ps. split; [exact Hout|]. split.
  - destruct (Hget "a") as (c & Hc & Hg); [discriminate|].
    simpl in Hc. inversion Hc; subst. exact Hg.
  - apply (Hget "b"). discriminate.
Defined.

(* ================================================================== *)
(** ** Security schemes *)

Lemma has_in (k : string) (o : object) : In k (keys o) -> has k o = true.
Proof.
  unfold has. induction o as [|[k' v'] r IH]; simpl; [contradiction|].
  intros [->|H]; [rewrite String.eqb_refl; reflexivity|].
  destruct (String.eqb k k'); [reflexivity | auto].
Qed.

Lemma keys_replace (k : string) (v : value) (o : object) :
  keys (replace k v o) = keys o.
Proof.
  induction o as [|[k' v'] r IH]; simpl; [reflexivity|].
  destruct (String.eqb k k'); simpl; [reflexivity | rewrite IH; reflexivity].
Qed.

(** Assigning to an ordinary key keeps the keys, or adds the key last. *)
Lemma keys_assign (k : string) (v : value) (o : object) :
  array_index k = None -> k <> "__proto__" ->
  keys (assign k v o)
  = if in_dec string_dec k (keys o) then keys o else keys o ++ [k].
Proof.
  intros Hi Hp. destruct (in_dec string_dec k (keys o)) as [Hin|Hout].
  - unfold assign. rewrite has_in by exact Hin. apply keys_replace.
  - rewrite assign_new by assumption. rewrite keys_app. reflexivity.
Qed.

Lemma getNameForAuthScheme_not_proto (s : AuthScheme) (n : string) :
  getNameForAuthScheme s = Ok n -> n <> "__proto__".
Proof.
  destruct s as [| |h|tag]; simpl; intro H; inversion H; subst; try discriminate.
  generalize (HeaderAuthScheme.pascalCaseUnsafeName h). intros u E.
  do 10 (destruct u as [|? u]; [simpl in E; discriminate E|]).
  simpl in E. discriminate E.
Qed.

Lemma securitySchemeObject_named (s : AuthScheme) (n : string) :
  getNameForAuthScheme s = Ok n -> exists v, securitySchemeObject s = Ok v.
Proof. destruct s; simpl; intro H; try discriminate; eauto. Qed.

Lemma constructSecuritySchemes_loop (n : string) (schemes : list AuthScheme) :
  forall names defs0 found,
    mapM getNameForAuthScheme schemes = Ok names ->
    scheme_state n found defs0 ->
    exists defs,
      foldM (fun securitySchemes scheme =>
               name <- getNameForAuthScheme scheme ;;
               v <- securitySchemeObject scheme ;;
               Ok (assign name v securitySchemes))
            schemes defs0 = Ok defs
      /\ keys defs = add_names (keys defs0) names
      /\ scheme_state n (last_scheme n schemes found) defs.
Proof.
  induction schemes as [|s r IH]; simpl; intros names defs0 found H Hst.
  - inversion H; subst. exists defs0. auto.
  - destruct (getNameForAuthScheme s) as [m|] eqn:En; [|discriminate].
    cbn [bind] in H |- *.
    destruct (mapM getNameForAuthScheme r) as [ns|] eqn:Er; [|discriminate].
    inversion H; subst.
    destruct (securitySchemeObject_named _ En) as [v Ev]. rewrite Ev. cbn [bind].
    pose proof (getNameForAuthScheme_not_index _ En) as Hi.
    pose proof (getNameForAuthScheme_not_proto _ En) as Hp.
    destruct (IH ns (assign m v defs0)
                 (if String.eqb n m then Some s else found) eq_refl)
      as (defs & Hd & Hk & Hl).
    + destruct (String.eqb n m) eqn:E.
      * apply String.eqb_eq in E. subst m. exists v. split; [exact Ev|].
        apply get_assign_same. exact Hp.
      * assert (Hn : n <> m).
        { intro Heq. subst m. rewrite String.eqb_refl in E. discriminate. }
        destruct found as [q|]; simpl in *.
        -- destruct Hst as (w & Hw & Hg). exists w. split; [exact Hw|].
           rewrite get_assign_other by exact Hn. exact Hg.
        -- rewrite get_assign_other by exact Hn. exact Hst.
    + exists defs. split; [exact Hd|]. split; [|exact Hl].
      rewrite Hk. simpl. rewrite keys_assign by assumption. reflexivity.
Qed.

(** X4. For schemes of recognized kinds, the security schemes mapping has
    one entry per distinct scheme name, in order of first occurrence, and
    under each name the scheme object of the last declared scheme with that
    name (a later scheme overwrites an earlier one of the same name, also
    one of another kind); it has no other entry. *)
Theorem security_schemes_lookup (requirement : AuthSchemesRequirement)
        (schemes : list AuthScheme) (names : list string) :
  mapM getNameForAuthScheme schemes = Ok names ->
  exists defs,
    constructSecuritySchemes (ApiAuth.make requirement schemes) = Ok defs
    /\ keys defs = distinct_names names
    /\ forall n, scheme_state n (last_scheme n schemes None) defs.
Proof.
  intro H. unfold constructSecuritySchemes. cbn [ApiAuth.schemes].
  destruct (constructSecuritySchemes_loop "" schemes [] None H eq_refl)
    as (defs & Hd & Hk & _).
  exists defs. split; [exact Hd|]. split; [exact Hk|].
  intro n.
  destruct (constructSecuritySchemes_loop n schemes [] None H eq_refl)
    as (defs' & Hd' & _ & Hl).
  rewrite Hd in Hd'. inversion Hd'; subst. exact Hl.
Qed.

Lemma security_schemes_lookup_witness :
  exists defs,
    constructSecuritySchemes
      (ApiAuth.make ALL
         [bearer; header (HeaderAuthScheme.make "X-Token" "Bearer")]) = Ok defs
    /\ keys defs = ["BearerAuth"]
    /\ get "BearerAuth" defs
       = Some (Obj [("type", Str "apiKey"); ("in", Str "header");
                    ("name", Str "X-Token")]).
Proof.
  destruct (security_schemes_lookup ALL
              [bearer; header (HeaderAuthScheme.make "X-Token" "Bearer")]
              eq_refl) as (defs & Hd & Hk & Hl).
  exists defs. split; [exact Hd|]. split; [exact Hk|].
  destruct (Hl "BearerAuth") as (v & Hv & Hg). simpl in Hv.
  inversion Hv; subst. exact Hg.
Defined.

(** X5. For schemes of recognized kinds the two security operations agree
    on the names: under [all] the one requirement object has exactly the
    keys of the security schemes mapping, in the same order; under [any]
    there is one requirement per scheme, each with a single key that the
    security schemes mapping defines. *)
Theorem requirements_name_defined_schemes (schemes : list AuthScheme)
        (names : list string) :
  mapM getNameForAuthScheme schemes = Ok names ->
  exists defs req reqs,
    constructSecuritySchemes (ApiAuth.make ALL schemes) = Ok defs
    /\ constructSecuritySchemes (ApiAuth.make ANY schemes) = Ok defs
    /\ constructEndpointSecurity (ApiAuth.make ALL schemes) = Ok [Obj req]
    /\ keys req = keys defs
    /\ constructEndpointSecurity (ApiAuth.make ANY schemes) = Ok reqs
    /\ List.length reqs = List.length schemes
    /\ Forall (fun r => exists n, r = Obj [(n, Arr [])] /\ has n defs = true) reqs.
Proof.
  intro H.
  destruct (constructSecuritySchemes_loop "" schemes [] None H eq_refl)
    as (defs & Hd & Hk & _).
  exists defs, (scopes (distinct_names names)),
         (map (fun n => Obj [(n, Arr [])]) names).
  split; [exact Hd|]. split; [exact Hd|].
  unfold constructEndpointSecurity. cbn [ApiAuth.requirement ApiAuth.schemes].
  split.
  { change (literal []) with (scopes []).
    rewrite (all_loop schemes H (NoDup_nil _) (Forall_nil _)). reflexivity. }
  split.
  { rewrite keys_scopes, Hk. reflexivity. }
  split; [apply any_loop; exact H|].
  split.
  { rewrite length_map. clear - H. revert names H.
    induction schemes as [|s r IH]; simpl; intros names H.
    - inversion H. reflexivity.
    - destruct (getNameForAuthScheme s); [|discriminate]. cbn [bind] in H.
      destruct (mapM getNameForAuthScheme r); [|discriminate].
      inversion H; subst. simpl. f_equal. apply IH. reflexivity. }
  apply Forall_forall. intros r Hr. apply in_map_iff in Hr.
  destruct Hr as (n & <- & Hn). exists n. split; [reflexivity|].
  apply has_in. rewrite Hk. unfold distinct_names.
  apply add_names_incl. right. exact Hn.
Qed.

Lemma requirements_name_defined_schemes_witness :
  exists defs req reqs,
    constructSecuritySchemes (ApiAuth.make ALL [basic; bearer; basic]) = Ok defs
    /\ constructEndpointSecurity (ApiAuth.make ALL [basic; bearer; basic]) = Ok [Obj req]
    /\ keys req = keys defs
    /\ constructEndpointSecurity (ApiAuth.make ANY [basic; bearer; basic]) = Ok reqs
    /\ List.length reqs = 3.
Proof.
  destruct (requirements_name_defined_schemes [basic; bearer; basic] eq_refl)
    as (defs & req & reqs & H1 & _ & H3 & H4 & H5 & H6 & _).
  exists defs, req, reqs. repeat split; assumption.
Defined.

(* ================================================================== *)
(** ** Which failure is reported *)

Lemma foldM_first_throw {A S : Type} (f : S -> A -> result S)
      (pre post : list A) (x : A) (m : string) :
  (forall s a, In a pre -> is_ok (f s a) = true) ->
  (forall s, f s x = Throw m) ->
  forall s, foldM f (pre ++ x :: post) s = Throw m.
Proof.
  intros Hpre Hx. induction pre as [|a r IH]; simpl; intro s.
  - rewrite Hx. reflexivity.
  - pose proof (Hpre s a (or_introl eq_refl)) as Ha.
    destruct (f s a); [|discriminate]. simpl. apply IH.
    intros s' a' Hin. apply Hpre. right. exact Hin.
Qed.

Lemma mapM_first_throw {A B : Type} (f : A -> result B)
      (pre post : list A) (x : A) (m : string) :
  (forall a, In a pre -> is_ok (f a) = true) ->
  f x = Throw m ->
  mapM f (pre ++ x :: post) = Throw m.
Proof.
  intros Hpre Hx. induction pre as [|a r IH]; simpl.
  - rewrite Hx. reflexivity.
  - pose proof (Hpre a (or_introl eq_refl)) as Ha.
    destruct (f a); [|discriminate]. simpl. rewrite IH; [reflexivity|].
    intros a' Hin. apply Hpre. right. exact Hin.
Qed.

(** X6. An object declaration fails with the error of its first declared
    property whose value type does not convert: the properties after it are
    not looked at, and the supertypes, the keys and the docs play no part. *)
Theorem object_reports_first_failure
        (exts : list DeclaredTypeName.t) (pre post : list ObjectProperty.t)
        (p : ObjectProperty.t) (docs : option string) (m : string) :
  forallb (fun q => visited_ref (ObjectProperty.valueType q)) pre = true ->
  convertTypeReference (ObjectProperty.valueType p) = Throw m ->
  convertObject (ObjectTypeDeclaration.make exts (pre ++ p :: post)) docs = Throw m.
Proof.
  intros Hpre Hp. rewrite convertObject_unfold.
  cbn [ObjectTypeDeclaration.properties].
  rewrite (foldM_first_throw convertObject_step pre post p (m := m)); [reflexivity| |].
  - intros s a Hin. rewrite convertObject_step_ok.
    rewrite forallb_forall in Hpre. apply Hpre. exact Hin.
  - intros [ps rs]. unfold convertObject_step. rewrite Hp. reflexivity.
Qed.

Lemma object_reports_first_failure_witness :
  convertObject
    (ObjectTypeDeclaration.make []
       ([ ObjectProperty.make "id" (TR_primitive UUID) None ]
        ++ ObjectProperty.make "size" (TR_primitive (PrimitiveType_other "BIG_INTEGER")) None
        :: [ ObjectProperty.make "tags" (TR_container (CT_other "bag")) None ]))
    None
  = Throw "Encountered unknown primitiveType: BIG_INTEGER".
Proof.
  apply (object_reports_first_failure []
           [ ObjectProperty.make "id" (TR_primitive UUID) None ]
           [ ObjectProperty.make "tags" (TR_container (CT_other "bag")) None ]
           (ObjectProperty.make "size" (TR_primitive (PrimitiveType_other "BIG_INTEGER")) None)
           None); reflexivity.
Defined.

(** X7. A union declaration fails with the error of its first declared
    variant whose value type does not convert, whatever the discriminant
    and the variants after it. *)
Theorem union_reports_first_failure
        (discriminant : string) (pre post : list SingleUnionType.t)
        (v : SingleUnionType.t) (docs : option string) (m : string) :
  forallb (fun w => visited_ref (SingleUnionType.valueType w)) pre = true ->
  convertTypeReference (SingleUnionType.valueType v) = Throw m ->
  convertUnion (UnionTypeDeclaration.make discriminant (pre ++ v :: post)) docs
  = Throw m.
Proof.
  intros Hpre Hv. unfold convertUnion.
  cbn [UnionTypeDeclaration.discriminant UnionTypeDeclaration.types].
  rewrite (mapM_first_throw (convertSingleUnionType discriminant) pre post v (m := m));
    [reflexivity| |].
  - intros a Hin. rewrite convertSingleUnionType_ok.
    rewrite forallb_forall in Hpre. apply Hpre. exact Hin.
  - unfold convertSingleUnionType. rewrite Hv. reflexivity.
Qed.

Lemma union_reports_first_failure_witness :
  convertUnion
    (UnionTypeDeclaration.make "type"
       ([ SingleUnionType.make "dog" (TR_named (DeclaredTypeName.make [] "dog")) ]
        ++ SingleUnionType.make "cat" (TR_other "inline")
        :: [ SingleUnionType.make "n" (TR_primitive (PrimitiveType_other "BIG_INTEGER")) ]))
    None
  = Throw "Encountered unknown typeReference: [object Object]".
Proof.
  apply (union_reports_first_failure "type"
           [ SingleUnionType.make "dog" (TR_named (DeclaredTypeName.make [] "dog")) ]
           [ SingleUnionType.make "n" (TR_primitive (PrimitiveType_other "BIG_INTEGER")) ]
           (SingleUnionType.make "cat" (TR_other "inline")) None); reflexivity.
Defined.

(* ================================================================== *)
(** ** Aliases *)

(** X8. The schema of an alias is the converted aliased reference, field
    for field and in the same order, followed by the description; a
    converted reference has no description of its own, so the description
    of the alias overwrites nothing.  The schema name is resolved from the
    declared name. *)
Theorem alias_appends_description
        (name : DeclaredTypeName.t) (docs : option string)
        (a : AliasTypeDeclaration.t) (c : object) :
  convertTypeReference (AliasTypeDeclaration.aliasOf a) = Ok c ->
  convertType (TypeDeclaration.make name docs (T_alias a))
  = Ok (ConvertedType.make (c ++ [("description", optional_string docs)])
                           (getNameFromDeclaredTypeName name))
  /\ get "description" c = None.
Proof.
  intro H. split.
  - unfold convertType, convertAlias.
    cbn [TypeDeclaration.shape TypeDeclaration.docs TypeDeclaration.name].
    rewrite H. cbn [bind]. rewrite (with_description _ _ H). reflexivity.
  - apply convertTypeReference_keys in H. apply get_not_in.
    unfold reference_keys in H. simpl in H.
    repeat (destruct H as [<-|H]; [simpl; intuition discriminate|]).
    contradiction.
Qed.

Lemma alias_appends_description_witness :
  convertType
    (TypeDeclaration.make (DeclaredTypeName.make ["core"] "userId") (Some "Id of a user")
       (T_alias (AliasTypeDeclaration.make
                   (TR_named (DeclaredTypeName.make ["core"] "id")))))
  = Ok (ConvertedType.make
          [("$ref", Str "#/components/schemas/CoreId");
           ("description", Str "Id of a user")]
          "CoreUserId").
Proof.
  apply (alias_appends_description (DeclaredTypeName.make ["core"] "userId")
           (Some "Id of a user")
           (AliasTypeDeclaration.make (TR_named (DeclaredTypeName.make ["core"] "id")))
           (c := [("$ref", Str "#/components/schemas/CoreId")])).
  vm_compute. reflexivity.
Defined.

(* ================================================================== *)
(** ** References in the output *)

Lemma refs_of_app (a b : object) :
  refs_of (Obj (a ++ b)) = refs_of (Obj a) ++ refs_of (Obj b).
Proof.
  induction a as [|[k x] r IH]; [reflexivity|].
  change (refs_of (Obj (((k, x) :: r) ++ b)))
    with (match x with
          | Str s => if String.eqb k "$ref" then [s] else []
          | _ => refs_of x
          end ++ refs_of (Obj (r ++ b))).
  rewrite IH, app_assoc. reflexivity.
Qed.

Lemma refs_of_entry (o : object) (s : string) :
  In s (refs_of (Obj o)) ->
  exists k x, In (k, x) o /\ In s (refs_of (Obj [(k, x)])).
Proof.
  induction o as [|[k x] r IH]; [contradiction|].
  change ((k, x) :: r) with ([(k, x)] ++ r). rewrite refs_of_app.
  intro H. apply in_app_or in H. destruct H as [H|H].
  - exists k, x. split; [left; reflexivity | exact H].
  - destruct (IH H) as (k' & x' & Hin & Hs).
    exists k', x'. split; [right; exact Hin | exact Hs].
Qed.

Lemma refs_of_strings (xs : list string) : refs_of (Arr (map Str xs)) = [].
Proof. induction xs as [|x r IH]; [reflexivity | exact IH]. Qed.

Lemma refs_of_optional_string (k : string) (d : option string) :
  String.eqb k "$ref" = false -> refs_of (Obj [(k, optional_string d)]) = [].
Proof. intro H. destruct d; simpl; [rewrite H|]; reflexivity. Qed.

Lemma refs_of_supertypes (exts : list DeclaredTypeName.t) :
  refs_of (Arr (map ref_object exts)) = map getReferenceFromDeclaredTypeName exts.
Proof.
  induction exts as [|d r IH]; [reflexivity|].
  change (refs_of (Arr (map ref_object (d :: r))))
    with (refs_of (ref_object d) ++ refs_of (Arr (map ref_object r))).
  rewrite IH. reflexivity.
Qed.

(** The references in a converted type reference are those of the names
    it mentions, in order. *)
Lemma convertTypeReference_refs_mut :
  (forall t o, convertTypeReference t = Ok o ->
     refs_of (Obj o) = map getReferenceFromDeclaredTypeName (named_in t))
  /\ (forall c o, convertContainerType c = Ok o ->
     refs_of (Obj o) = map getReferenceFromDeclaredTypeName (named_in_container c)).
Proof.
  apply TypeReference_ContainerType_ind; simpl; intros; auto;
    try discriminate; try (inversion H; subst; reflexivity).
  - destruct primitive; simpl in H; inversion H; subst; reflexivity.
  - destruct (convertTypeReference list_) as [i|] eqn:E; simpl in H0; [|discriminate].
    inversion H0; subst. simpl. rewrite app_nil_r. apply (H i eq_refl).
  - destruct (convertTypeReference set_) as [i|] eqn:E; simpl in H0; [|discriminate].
    inversion H0; subst. simpl. rewrite app_nil_r. apply (H i eq_refl).
  - destruct (convertTypeReference valueType) as [i|] eqn:E; simpl in H1; [|discriminate].
    inversion H1; subst. simpl. rewrite app_nil_r. apply (H0 i eq_refl).
Qed.

Lemma convertTypeReference_refs (t : TypeReference) (o : object) :
  convertTypeReference t = Ok o ->
  refs_of (Obj o) = map getReferenceFromDeclaredTypeName (named_in t).
Proof. apply (proj1 convertTypeReference_refs_mut). Qed.

Lemma in_replace (kv : string * value) (k : string) (v : value) (o : object) :
  In kv (replace k v o) -> kv = (k, v) \/ In kv o.
Proof.
  induction o as [|[k' v'] r IH]; simpl; [tauto|].
  destruct (String.eqb k k') eqn:E; simpl.
  - apply String.eqb_eq in E. subst k'. intuition congruence.
  - intros [H|H]; [tauto|]. destruct (IH H); tauto.
Qed.

Lemma in_insert_index (kv : string * value) (n : N) (k : string) (v : value) (o : object) :
  In kv (insert_index n k v o) -> kv = (k, v) \/ In kv o.
Proof.
  induction o as [|[k' v'] r IH]; simpl; [intuition congruence|].
  destruct (array_index k') as [m|]; [destruct (m <? n)%N|]; simpl;
    intuition congruence.
Qed.

(** An assignment adds at most the assigned entry. *)
Lemma in_assign (kv : string * value) (k : string) (v : value) (o : object) :
  In kv (assign k v o) -> kv = (k, v) \/ In kv o.
Proof.
  unfold assign, define. destruct (has k o).
  - apply in_replace.
  - destruct (String.eqb k "__proto__"); [tauto|].
    destruct (array_index k).
    + apply in_insert_index.
    + intro H. apply in_app_or in H. simpl in H. intuition congruence.
Qed.

Lemma convertObject_loop_entries (props : list ObjectProperty.t) :
  forall ps rs ps' rs' kv,
    foldM convertObject_step props (ps, rs) = Ok (ps', rs') ->
    In kv ps' ->
    In kv ps
    \/ exists p c, In p props
         /\ convertTypeReference (ObjectProperty.valueType p) = Ok c
         /\ snd kv = Obj (c ++ [("description", optional_string (ObjectProperty.docs p))]).
Proof.
  induction props as [|p r IH]; simpl; intros ps rs ps' rs' kv H Hin.
  - inversion H; subst. left. exact Hin.
  - destruct (convertTypeReference (ObjectProperty.valueType p)) as [c|m] eqn:Ec;
      [|discriminate].
    cbn [bind] in H. rewrite (with_description _ _ Ec) in H.
    destruct (IH _ _ _ _ _ H Hin) as [Hold|(q & c' & Hq & Hc' & Hv)].
    + apply in_assign in Hold. destruct Hold as [->|Hold]; [|left; exact Hold].
      right. exists p, c. simpl. auto.
    + right. exists q, c'. auto.
Qed.

Lemma refs_in_property (p : ObjectProperty.t) (c : object) (s : string) :
  convertTypeReference (ObjectProperty.valueType p) = Ok c ->
  In s (refs_of (Obj (c ++ [("description", optional_string (ObjectProperty.docs p))]))) ->
  In s (map getReferenceFromDeclaredTypeName (named_in (ObjectProperty.valueType p))).
Proof.
  intros Hc Hs. rewrite refs_of_app in Hs.
  rewrite refs_of_optional_string in Hs by reflexivity.
  rewrite app_nil_r in Hs. rewrite (convertTypeReference_refs _ Hc) in Hs. exact Hs.
Qed.

Lemma assign_empty_cases (k : string) (v : value) :
  assign k v [] = [] \/ assign k v [] = [(k, v)].
Proof.
  unfold assign. simpl. destruct (String.eqb k "__proto__"); [left; reflexivity|].
  right. unfold define. simpl. destruct (array_index k); reflexivity.
Qed.

Lemma refs_in_variant (discriminant : string) (v : SingleUnionType.t) (out : value)
      (s : string) :
  convertSingleUnionType discriminant v = Ok out ->
  In s (refs_of out) ->
  In s (map getReferenceFromDeclaredTypeName (named_in (SingleUnionType.valueType v))).
Proof.
  unfold convertSingleUnionType.
  destruct (convertTypeReference (SingleUnionType.valueType v)) as [c|m] eqn:Ec;
    [|discriminate].
  cbn [bind]. pose proof (convertTypeReference_refs _ Ec) as Hrefs.
  destruct (assign_empty_cases discriminant (discriminant_tag v)) as [E|E];
    rewrite E.
  - (* the key [__proto__]: the properties stay empty *)
    assert (E2 : assign discriminant (Obj c) [] = []).
    { unfold assign in E |- *. simpl in E |- *.
      destruct (String.eqb discriminant "__proto__"); [reflexivity|].
      unfold define in E. simpl in E. destruct (array_index discriminant); discriminate. }
    rewrite E2.
    destruct (SingleUnionType.valueType v); intro H; inversion H; subst;
      simpl; try tauto.
  - rewrite assign_again.
    destruct (SingleUnionType.valueType v) eqn:Ev; intro H; inversion H; subst;
      simpl in Hrefs |- *; rewrite ?app_nil_r; try (rewrite <- Hrefs; tauto);
      try tauto; rewrite Hrefs; simpl; tauto.
Qed.

Lemma refs_of_items (xs : list value) (s : string) :
  In s (refs_of (Arr xs)) -> exists x, In x xs /\ In s (refs_of x).
Proof.
  induction xs as [|x r IH]; [contradiction|].
  change (refs_of (Arr (x :: r))) with (refs_of x ++ refs_of (Arr r)).
  intro H. apply in_app_or in H. destruct H as [H|H].
  - exists x. split; [left; reflexivity | exact H].
  - destruct (IH H) as (y & Hy & Hs). exists y. split; [right; exact Hy | exact Hs].
Qed.

Lemma refs_of_enum (vs : list EnumValue.t) :
  refs_of (Arr (map (fun enumValue => Str (EnumValue.value enumValue)) vs)) = [].
Proof. induction vs as [|x r IH]; [reflexivity | exact IH]. Qed.

Lemma mapM_in {A B : Type} (f : A -> result B) (xs : list A) :
  forall ys y, mapM f xs = Ok ys -> In y ys -> exists x, In x xs /\ f x = Ok y.
Proof.
  induction xs as [|x r IH]; simpl; intros ys y H Hin.
  - inversion H; subst. contradiction.
  - destruct (f x) as [b|] eqn:E; [|discriminate]. cbn [bind] in H.
    destruct (mapM f r) as [bs|]; [|discriminate]. inversion H; subst.
    destruct Hin as [<-|Hin]; [eauto|].
    destruct (IH bs y eq_refl Hin) as (a & Ha & Hf). eauto.
Qed.

Lemma named_reference (names : list DeclaredTypeName.t) (s : string) :
  In s (map getReferenceFromDeclaredTypeName names) ->
  exists D, In D names /\ s = getReferenceFromDeclaredTypeName D.
Proof.
  intro H. apply in_map_iff in H. destruct H as (D & <- & HD). eauto.
Qed.

Lemma refs_of_object_schema (docs : option string) (ps : object)
      (rs : list string) (rest : object) :
  refs_of (Obj (("type", Str "object") :: ("description", optional_string docs)
                :: ("properties", Obj ps) :: ("required", Arr (map Str rs)) :: rest))
  = refs_of (Obj ps) ++ refs_of (Obj rest).
Proof.
  change (refs_of (Obj ([("type", Str "object")]
                        ++ [("description", optional_string docs)]
                        ++ [("properties", Obj ps)]
                        ++ [("required", Arr (map Str rs))] ++ rest))
          = refs_of (Obj ps) ++ refs_of (Obj rest)).
  rewrite !refs_of_app. rewrite refs_of_optional_string by reflexivity.
  change (refs_of (Obj [("required", Arr (map Str rs))]))
    with (refs_of (Arr (map Str rs)) ++ []).
  rewrite refs_of_strings.
  change (refs_of (Obj [("properties", Obj ps)])) with (refs_of (Obj ps) ++ []).
  simpl. rewrite app_nil_r. reflexivity.
Qed.

(** X9. The converters invent no reference.  The [$ref] strings in a
    converted type reference are exactly the references of the declared
    names it mentions outside map keys, in order; and every [$ref] string
    anywhere in the schema of a declaration is the reference of a declared
    name the declaration mentions as a supertype or in a property, variant
    or alias type. *)
Theorem no_invented_references :
  (forall t o, convertTypeReference t = Ok o ->
     refs_of (Obj o) = map getReferenceFromDeclaredTypeName (named_in t))
  /\ (forall d r s,
        convertType d = Ok r ->
        In s (refs_of (Obj (ConvertedType.openApiSchema r))) ->
        exists D, In D (named_in_shape (TypeDeclaration.shape d))
                  /\ s = getReferenceFromDeclaredTypeName D).
Proof.
  split; [exact convertTypeReference_refs|].
  intros d r s. unfold convertType.
  destruct (TypeDeclaration.shape d) as [a|e|o|u|tag]; cbn [named_in_shape].
  - (* alias *)
    unfold convertAlias.
    destruct (convertTypeReference (AliasTypeDeclaration.aliasOf a)) as [c|] eqn:Ec;
      [|discriminate].
    cbn [bind]. rewrite (with_description _ _ Ec). intro H. inversion H; subst.
    cbn [ConvertedType.openApiSchema]. rewrite refs_of_app.
    rewrite refs_of_optional_string by reflexivity. rewrite app_nil_r.
    rewrite (convertTypeReference_refs _ Ec). apply named_reference.
  - (* enum *)
    intro H. simpl in H. inversion H; subst. cbn [ConvertedType.openApiSchema].
    change (refs_of _)
      with ([] ++ refs_of (Arr (map (fun enumValue => Str (EnumValue.value enumValue))
                                    (EnumTypeDeclaration.values e)))
               ++ refs_of (Obj [("description", optional_string (TypeDeclaration.docs d))])).
    rewrite refs_of_enum, refs_of_optional_string by reflexivity. contradiction.
  - (* object *)
    rewrite convertObject_unfold.
    destruct (foldM convertObject_step (ObjectTypeDeclaration.properties o) ([], []))
      as [[ps rs]|] eqn:Eloop; [|discriminate].
    cbn [bind fst snd]. intro H. inversion H; subst.
    cbn [ConvertedType.openApiSchema]. rewrite refs_of_object_schema.
    intro Hs. apply in_app_or in Hs. destruct Hs as [Hs|Hs].
    + apply refs_of_entry in Hs. destruct Hs as (k & x & Hin & Hx).
      destruct (@convertObject_loop_entries _ _ _ _ _ _ Eloop Hin)
        as [[]|(p & c & Hp & Hc & Hv)].
      simpl in Hv. subst x.
      assert (Hx' : In s (refs_of (Obj (c ++ [("description",
                                   optional_string (ObjectProperty.docs p))])))).
      { simpl in Hx. rewrite app_nil_r in Hx. exact Hx. }
      apply (@refs_in_property _ _ _ Hc) in Hx'.
      destruct (@named_reference _ _ Hx') as (D & HD & ->).
      exists D. split; [|reflexivity]. apply in_or_app. right.
      apply in_flat_map. exists p. auto.
    + destruct (ObjectTypeDeclaration.extends o) as [|x exts] eqn:Ex;
        [contradiction|].
      assert (Hs' : In s (map getReferenceFromDeclaredTypeName (x :: exts))).
      { rewrite <- refs_of_supertypes.
        unfold allOf_of in Hs. simpl in Hs. rewrite app_nil_r in Hs. exact Hs. }
      destruct (@named_reference _ _ Hs') as (D & HD & ->).
      exists D. split; [|reflexivity]. apply in_or_app. left. exact HD.
  - (* union *)
    unfold convertUnion.
    destruct (mapM (convertSingleUnionType (UnionTypeDeclaration.discriminant u))
                   (UnionTypeDeclaration.types u)) as [vs|] eqn:Evs; [|discriminate].
    cbn [bind]. intro H. inversion H; subst. cbn [ConvertedType.openApiSchema].
    change (refs_of _)
      with (refs_of (Arr vs)
            ++ refs_of (Obj [("description", optional_string (TypeDeclaration.docs d))])).
    rewrite refs_of_optional_string by reflexivity. rewrite app_nil_r.
    intro Hs. apply refs_of_items in Hs. destruct Hs as (v & Hv & Hs).
    destruct (@mapM_in _ _ _ _ _ _ Evs Hv) as (w & Hw & Hf).
    pose proof (@refs_in_variant _ _ _ _ Hf Hs) as Hin.
    destruct (@named_reference _ _ Hin) as (D & HD & ->).
    exists D. split; [|reflexivity]. apply in_flat_map. exists w. auto.
  - discriminate.
Qed.

Lemma no_invented_references_witness :
  refs_of (Obj [("type", Str "object");
                ("additionalProperties",
                 Obj [("type", Str "array");
                      ("items", Obj [("$ref", Str "#/components/schemas/CoreUser")])])])
  = [getReferenceFromDeclaredTypeName (DeclaredTypeName.make ["core"] "user")].
Proof.
  exact (proj1 no_invented_references
           (TR_container
              (CT_map (TR_named (DeclaredTypeName.make [] "ignored"))
                      (TR_container
                         (CT_list (TR_named (DeclaredTypeName.make ["core"] "user"))))))
           _ eq_refl).
Defined.

(* ================================================================== *)
(** ** Required keys and properties *)

Lemma last_property_found (k : string) (props : list ObjectProperty.t) :
  forall q, exists p, last_property k props (Some q) = Some p.
Proof.
  induction props as [|x r IH]; simpl; intro q; [eauto|].
  destruct (String.eqb k (ObjectProperty.key x)); apply IH.
Qed.

Lemma last_property_declared (k : string) (props : list ObjectProperty.t) :
  forall found p, In p props -> ObjectProperty.key p = k ->
  exists q, last_property k props found = Some q.
Proof.
  induction props as [|x r IH]; simpl; intros found p Hin Hk; [contradiction|].
  destruct Hin as [->|Hin].
  - rewrite Hk, String.eqb_refl. apply last_property_found.
  - eapply IH; eauto.
Qed.

Lemma last_property_origin (k : string) (props : list ObjectProperty.t) :
  forall found p, last_property k props found = Some p ->
  found = Some p \/ (In p props /\ ObjectProperty.key p = k).
Proof.
  induction props as [|x r IH]; simpl; intros found p H; [left; exact H|].
  destruct (IH _ _ H) as [Hf|[Hin Hk]].
  - destruct (String.eqb k (ObjectProperty.key x)) eqn:E; [|left; exact Hf].
    inversion Hf; subst. right. split; [left; reflexivity|].
    apply String.eqb_eq in E. symmetry. exact E.
  - right. split; [right; exact Hin | exact Hk].
Qed.

(** X10. In the schema of an object declaration over the closed set,
    every required key other than [__proto__] is a key of the properties
    mapping, and every key of the properties mapping is the key of a
    declared property. *)
Theorem required_keys_are_properties
        (o : ObjectTypeDeclaration.t) (docs : option string) :
  closed_object o = true ->
  exists ps,
    convertObject o docs
    = Ok ([("type", Str "object");
           ("description", optional_string docs);
           ("properties", Obj ps);
           ("required", Arr (map Str (required_keys (ObjectTypeDeclaration.properties o))))]
          ++ allOf_of (ObjectTypeDeclaration.extends o))
    /\ (forall k, In k (required_keys (ObjectTypeDeclaration.properties o)) ->
                  k <> "__proto__" -> has k ps = true)
    /\ (forall k, has k ps = true ->
                  exists p, In p (ObjectTypeDeclaration.properties o)
                            /\ ObjectProperty.key p = k).
Proof.
  intro Hc. destruct (convertObject_closed o docs Hc) as (ps & Hout & Hloop).
  exists ps. split; [exact Hout|].
  assert (Hst : forall k, k <> "__proto__" ->
            key_state k (last_property k (ObjectTypeDeclaration.properties o) None) ps).
  { intros k Hk. eapply convertObject_loop_lookup; [exact Hk | exact Hloop |].
    reflexivity. }
  split.
  - intros k Hreq Hk. unfold required_keys in Hreq.
    apply in_map_iff in Hreq. destruct Hreq as (p & Hp & Hin).
    apply filter_In in Hin. destruct Hin as [Hin _].
    destruct (@last_property_declared k _ None p Hin Hp) as [q Hq].
    specialize (Hst k Hk). rewrite Hq in Hst.
    destruct Hst as (c & _ & Hg). unfold has. rewrite Hg. reflexivity.
  - intros k Hhas.
    destruct (String.eqb k "__proto__") eqn:E.
    + apply String.eqb_eq in E. subst k. unfold has in Hhas.
      rewrite (@convertObject_loop_no_proto _ _ _ _ _ Hloop eq_refl) in Hhas.
      discriminate.
    + assert (Hk : k <> "__proto__").
      { intro Heq. subst k. discriminate. }
      specialize (Hst k Hk).
      destruct (last_property k (ObjectTypeDeclaration.properties o) None)
        as [p|] eqn:El.
      * destruct (@last_property_origin _ _ _ _ El) as [Hf|[Hin Hkp]];
          [discriminate|]. exists p. auto.
      * simpl in Hst. unfold has in Hhas. rewrite Hst in Hhas. discriminate.
Qed.

Lemma required_keys_are_properties_witness :
  exists ps,
    convertObject two_properties_object None
    = Ok ([("type", Str "object");
           ("description", Undefined);
           ("properties", Obj ps);
           ("required", Arr [Str "id"])]
          ++ allOf_of (ObjectTypeDeclaration.extends two_properties_object))
    /\ has "id" ps = true.
Proof.
  destruct (required_keys_are_properties two_properties_object None eq_refl)
    as (ps & Hout & Hreq & _).
  exists ps. split; [exact Hout|].
  apply Hreq; [left; reflexivity | discriminate].
Defined.
